(** * Multi-threaded file downloader (downloader.py): model and properties

    A shallow embedding of [src/downloader.py].  Python integers are [Z],
    file contents are [list byte], the file system is a finite map from
    paths to contents, and the effects of the program (file system,
    network requests, progress bars, exceptions) are threaded through a
    small state-and-exception monad. *)

From Stdlib Require Import ZArith List Lia.
From Stdlib.Strings Require Import Byte Ascii.
From stdpp Require Import base numbers list strings pretty gmap.

Local Open Scope Z_scope.

(** ** Range planning (download_file_in_chunks, lines 83-84) *)

(** Python's [range(n)]: empty when [n <= 0]. *)
Definition range (n : Z) : list Z := Z.of_nat <$> seq 0 (Z.to_nat n).

(** [chunk_size = total_size // num_threads].  Python's [//] rounds towards
    minus infinity, as [Z.div] does; the caller has checked
    [num_threads > 0] before this line is reached. *)
Definition chunk_size (total_size num_threads : Z) : Z :=
  total_size `div` num_threads.

(** [ranges = [(i * chunk_size, min((i + 1) * chunk_size - 1, total_size - 1))
               for i in range(num_threads)]]. *)
Definition ranges (total_size num_threads : Z) : list (Z * Z) :=
  (λ i, (i * chunk_size total_size num_threads,
         Z.min ((i + 1) * chunk_size total_size num_threads - 1)
               (total_size - 1)))
    <$> range num_threads.

(** A byte offset lies in an inclusive range. *)
Definition in_range (b : Z) (r : Z * Z) : Prop := r.1 ≤ b ≤ r.2.

Definition in_rangeb (b : Z) (r : Z * Z) : bool :=
  bool_decide (r.1 ≤ b) && bool_decide (b ≤ r.2).

Definition covered (b : Z) (rs : list (Z * Z)) : Prop :=
  ∃ r, r ∈ rs ∧ in_range b r.

Definition coveredb (b : Z) (rs : list (Z * Z)) : bool :=
  existsb (in_rangeb b) rs.

(** Ranges at different positions share no byte. *)
Definition no_overlap (rs : list (Z * Z)) : Prop :=
  ∀ (i j : nat) r1 r2 b,
    rs !! i = Some r1 → rs !! j = Some r2 →
    in_range b r1 → in_range b r2 → i = j.

(** Each range starts right after the previous one ends. *)
Definition contiguous (rs : list (Z * Z)) : Prop :=
  ∀ (i : nat) r1 r2,
    rs !! i = Some r1 → rs !! S i = Some r2 → r2.1 = r1.2 + 1.

(** ** Exceptions, the world, and the effect monad *)

Local Open Scope string_scope.
Local Open Scope list_scope.

(** The Python exceptions the program can meet.  [RequestException] stands
    for any failure raised by the transport ([requests]). *)
Inductive exn : Type :=
  | ValueError (msg : string)
  | KeyError (key : string)
  | FileNotFoundError (path : string)
  | IndexError
  | RequestException.

Inductive result (A : Type) : Type :=
  | Ok (a : A)
  | Raise (e : exn).
Arguments Ok {A} a.
Arguments Raise {A} e.

Inductive method : Type := HEAD | GET.

(** A request as issued through [requests.head] / [requests.get]. *)
Record request : Type := Request {
  req_method : method;
  req_url : string;
  req_headers : list (string * string) }.

(** A [tqdm] progress bar: description, total, bytes counted, closed. *)
Record bar : Type := Bar {
  bar_desc : string;
  bar_total : Z;
  bar_n : Z;
  bar_closed : bool }.

(** What the program can observe or change: the files on disk, the
    requests sent so far, and the list [thread_progress_bars]. *)
Record world : Type := World {
  fs : gmap string (list byte);
  net_log : list request;
  bars : list bar }.

Definition set_fs (f : gmap string (list byte) → gmap string (list byte))
    (w : world) : world :=
  {| fs := f (fs w); net_log := net_log w; bars := bars w |}.

Definition set_bars (f : list bar → list bar) (w : world) : world :=
  {| fs := fs w; net_log := net_log w; bars := f (bars w) |}.

Definition log_request (rq : request) (w : world) : world :=
  {| fs := fs w; net_log := net_log w ++ [rq]; bars := bars w |}.

(** State and exceptions: a computation returns a value or raises, and the
    world it has reached is kept in both cases. *)
Definition M (A : Type) : Type := world → result A * world.

Definition ret {A} (a : A) : M A := λ w, (Ok a, w).
Definition raise {A} (e : exn) : M A := λ w, (Raise e, w).
Definition bind {A B} (m : M A) (k : A → M B) : M B := λ w,
  match m w with
  | (Ok a, w') => k a w'
  | (Raise e, w') => (Raise e, w')
  end.
Definition modify (f : world → world) : M unit := λ w, (Ok tt, f w).

Notation "x <~ m ;; k" := (bind m (λ x, k))
  (at level 100, m at next level, right associativity).
Notation "m ;;; k" := (bind m (λ _, k))
  (at level 100, right associativity).

(** ** The environment: the network and [int()] *)

(** What [requests.head] can do: raise, or return a response whose headers
    are a case-insensitive dictionary (keys stored lower-cased). *)
Inductive head_outcome : Type :=
  | HeadRaise
  | HeadResponse (headers : gmap string string).

(** What [requests.get(..., stream=True)] followed by [iter_content] can do:
    raise before any byte arrives, or return a response with a status code
    whose body arrives as a sequence of blocks, after which the stream
    either ends or breaks ([broken = true]: [iter_content] raises). *)
Inductive get_outcome : Type :=
  | GetRaise
  | GetResponse (status : Z) (blocks : list (list byte)) (broken : bool).

(** [int_of_str] is Python's builtin [int] on a string ([None]: it raises
    [ValueError]); [server_get] is asked by the thread with the given
    index. *)
Record env : Type := Env {
  int_of_str : string → option Z;
  server_head : request → head_outcome;
  server_get : nat → request → get_outcome }.

Definition lower_ascii (c : ascii) : ascii :=
  let n := nat_of_ascii c in
  if (65 <=? n)%nat && (n <=? 90)%nat then ascii_of_nat (n + 32) else c.

Fixpoint lower (s : string) : string :=
  match s with
  | EmptyString => EmptyString
  | String c s' => String (lower_ascii c) (lower s')
  end.

(** [requests.head(url)]. *)
Definition requests_head (E : env) (url : string) : M (gmap string string) :=
  let rq := Request HEAD url [] in
  modify (log_request rq) ;;;
  match server_head E rq with
  | HeadRaise => raise RequestException
  | HeadResponse h => ret h
  end.

(** [response.headers[key]]. *)
Definition headers_getitem (h : gmap string string) (key : string) : M string :=
  match h !! lower key with
  | Some v => ret v
  | None => raise (KeyError (lower key))
  end.

(** [int(s)]. *)
Definition int (E : env) (s : string) : M Z :=
  match int_of_str E s with
  | Some z => ret z
  | None => raise (ValueError "invalid literal for int()")
  end.

(** [requests.get(url, headers=headers, stream=True)] from thread [i]. *)
Definition requests_get (E : env) (i : nat) (url : string)
    (headers : list (string * string)) : M (Z * list (list byte) * bool) :=
  let rq := Request GET url headers in
  modify (log_request rq) ;;;
  match server_get E i rq with
  | GetRaise => raise RequestException
  | GetResponse st blocks broken => ret (st, blocks, broken)
  end.

(** ** File operations *)

(** The disk of the model accepts every file opened for writing and every
    write: a path string names one file, and the [OSError] that [open]
    raises for a missing directory, a directory at the path or a missing
    permission is not modelled.  What is stated below about a file being
    created or written is about a disk on which that path can be opened
    for writing. *)

(** [open(path, 'wb')]: the file is created, or truncated if it exists. *)
Definition open_wb (path : string) : M unit :=
  modify (set_fs (<[path := []]>)).

(** [f.write(data)] on a file opened for writing at [path]. *)
Definition f_write (path : string) (data : list byte) : M unit :=
  modify (set_fs (alter (λ c, c ++ data) path)).

(** [open(path, 'rb')] followed by [f.read()]. *)
Definition read_file (path : string) : M (list byte) := λ w,
  match fs w !! path with
  | Some data => (Ok data, w)
  | None => (Raise (FileNotFoundError path), w)
  end.

(** [os.remove(path)]. *)
Definition os_remove (path : string) : M unit := λ w,
  match fs w !! path with
  | Some _ => (Ok tt, set_fs (delete path) w)
  | None => (Raise (FileNotFoundError path), w)
  end.

(** [thread_progress_bars[i].update(n)]; indexing the list out of range
    raises [IndexError]. *)
Definition tqdm_update (i : nat) (n : Z) : M unit := λ w,
  match bars w !! i with
  | Some b =>
      (Ok tt, set_bars (<[i := Bar (bar_desc b) (bar_total b) (bar_n b + n)
                                   (bar_closed b)]>) w)
  | None => (Raise IndexError, w)
  end.

(** ** download_chunk (lines 19-46) *)

(** [headers = {'Range': f'bytes={start_byte}-{end_byte}'}]. *)
Definition range_header (start_byte end_byte : Z) : list (string * string) :=
  [("Range", "bytes=" +:+ pretty start_byte +:+ "-" +:+ pretty end_byte)].

(** [temp_file_path = f"{save_path}.part{thread_index}"]. *)
Definition temp_file_path (save_path : string) (thread_index : nat) : string :=
  save_path +:+ ".part" +:+ pretty thread_index.

(** The loop over [response.iter_content(chunk_size=1024)]: an empty block
    is skipped ([if chunk:]), any other is written and reported. *)
Fixpoint write_chunks (path : string) (thread_index : nat)
    (blocks : list (list byte)) : M unit :=
  match blocks with
  | [] => ret tt
  | chunk :: rest =>
      match chunk with
      | [] => ret tt
      | _ :: _ =>
          f_write path chunk ;;;
          tqdm_update thread_index (Z.of_nat (length chunk))
      end ;;;
      write_chunks path thread_index rest
  end.

Definition download_chunk (E : env) (url save_path : string)
    (start_byte end_byte : Z) (thread_index : nat) : M string :=
  let headers := range_header start_byte end_byte in
  response <~ requests_get E thread_index url headers ;;
  let '(_, blocks, broken) := response in
  let temp_file_path := temp_file_path save_path thread_index in
  open_wb temp_file_path ;;;
  write_chunks temp_file_path thread_index blocks ;;;
  (if broken : bool then raise RequestException else ret tt) ;;;
  ret temp_file_path.

(** ** merge_files (lines 48-61) *)

Fixpoint merge_loop (temp_files : list string) (save_path : string) : M unit :=
  match temp_files with
  | [] => ret tt
  | temp_file :: rest =>
      data <~ read_file temp_file ;;
      f_write save_path data ;;;
      os_remove temp_file ;;;
      merge_loop rest save_path
  end.

Definition merge_files (temp_files : list string) (save_path : string) : M unit :=
  open_wb save_path ;;;
  merge_loop temp_files save_path.

(** ** The thread pool *)

(** The executor runs every submitted task to completion, also when one of
    them raises: the exception is kept in the future of the task, and
    leaving the [with] block waits for all of them.  Each task touches only
    its own scratch file and its own progress bar, so whatever the
    interleaving of the threads the files and the bars end as if the tasks
    had run one after the other; the model runs them so, in the order of
    submission, which is also the order in which it logs their requests
    (the real order of the requests is the scheduler's).  The result is
    the list of the settled futures, by task index. *)
Fixpoint run_tasks {A} (tasks : list (M A)) (w : world) :
    list (result A) * world :=
  match tasks with
  | [] => ([], w)
  | t :: rest =>
      let '(r, w1) := t w in
      let '(rs, w2) := run_tasks rest w1 in
      (r :: rs, w2)
  end.

(** [concurrent.futures.as_completed(futures)] yields every future once, in
    an order the program does not control: the futures already finished
    when it is called come first, in the iteration order of a set, the
    others follow as they complete.  [order] lists the task indices in the
    order in which their futures are yielded; it is a permutation of the
    indices. *)
Definition as_completed {A} (futures : list A) (order : list nat) : list A :=
  omap (λ k, futures !! k) order.

Definition thread_pool {A} (tasks : list (M A)) (order : list nat) :
    M (list (result A)) :=
  λ w, let '(futures, w') := run_tasks tasks w in
       (Ok (as_completed futures order), w').

(** [for future in as_completed(futures): temp_files.append(future.result())]:
    [future.result()] re-raises the exception of a failed task. *)
Fixpoint collect_results (futures : list (result string))
    (temp_files : list string) : M (list string) :=
  match futures with
  | [] => ret temp_files
  | Ok p :: rest => collect_results rest (temp_files ++ [p])
  | Raise e :: _ => raise e
  end.

(** ** download_file_in_chunks (lines 63-108) *)

(** [tqdm(total=end_byte - start_byte + 1, desc=f"Thread {i+1}")] for each
    range. *)
Definition make_bars (rs : list (Z * Z)) : list bar :=
  imap (λ i '(start_byte, end_byte),
          Bar ("Thread " +:+ pretty (i + 1)%nat) (end_byte - start_byte + 1)
              0 false) rs.

Definition close_bar (b : bar) : bar :=
  Bar (bar_desc b) (bar_total b) (bar_n b) true.

Definition download_file_in_chunks (E : env) (order : list nat)
    (url save_path : string) (num_threads : Z) : M unit :=
  if bool_decide (num_threads ≤ 0)%Z then
    raise (ValueError "Number of threads must be greater than 0")
  else
    response <~ requests_head E url ;;
    content_length <~ headers_getitem response "Content-Length" ;;
    total_size <~ int E content_length ;;
    let ranges := ranges total_size num_threads in
    modify (set_bars (λ _, make_bars ranges)) ;;;
    futures <~ thread_pool
      (imap (λ i '(start_byte, end_byte),
               download_chunk E url save_path start_byte end_byte i) ranges)
      order ;;
    temp_files <~ collect_results futures [] ;;
    modify (set_bars (fmap close_bar)) ;;;
    merge_files temp_files save_path.

(** ** Concrete environments on which the model runs *)

#[global] Instance method_eq_dec : EqDecision method.
Proof. solve_decision. Defined.

#[global] Instance request_eq_dec : EqDecision request.
Proof. solve_decision. Defined.

Definition digit_of (c : ascii) : option Z :=
  let n := nat_of_ascii c in
  if (48 <=? n)%nat && (n <=? 57)%nat then Some (Z.of_nat (n - 48)) else None.

Fixpoint parse_digits (s : string) (acc : Z) : option Z :=
  match s with
  | EmptyString => Some acc
  | String c s' =>
      match digit_of c with
      | Some d => parse_digits s' (10 * acc + d)%Z
      | None => None
      end
  end.

(** Plain decimal literals, with an optional minus sign. *)
Definition decimal_int (s : string) : option Z :=
  match s with
  | EmptyString => None
  | String "-"%char EmptyString => None
  | String "-"%char s' => Z.opp <$> parse_digits s' 0
  | _ => parse_digits s 0
  end.

(** A server described by a table from requests to what they are answered. *)
Definition table_get (tbl : list (request * get_outcome)) (rq : request) :
    get_outcome :=
  match list_find (λ p, p.1 = rq) tbl with
  | Some (_, (_, o)) => o
  | None => GetRaise
  end.

Definition sized_head (size : string) (rq : request) : head_outcome :=
  HeadResponse {[ "content-length" := size ]}.

Definition empty_world : world := World ∅ [] [].

(** ** Vocabulary for stating what the download does *)

Definition chunk_request (url : string) (start_byte end_byte : Z) : request :=
  Request GET url (range_header start_byte end_byte).

(** What the future of thread [k] holds, given how its request was answered. *)
Definition future_of (save_path : string) (k : nat) (o : get_outcome) :
    result string :=
  match o with
  | GetRaise => Raise RequestException
  | GetResponse _ _ broken =>
      if broken then Raise RequestException
      else Ok (temp_file_path save_path k)
  end.

(** What the scratch file of a thread holds afterwards, given what was
    at its path before. *)
Definition written_by (o : get_outcome) (old : option (list byte)) :
    option (list byte) :=
  match o with
  | GetRaise => old
  | GetResponse _ blocks _ => Some (concat blocks)
  end.

(** The tasks submitted by [download_file_in_chunks]. *)
Definition chunk_tasks (E : env) (url save_path : string)
    (rs : list (Z * Z)) : list (M string) :=
  imap (λ i '(start_byte, end_byte),
          download_chunk E url save_path start_byte end_byte i) rs.

(** The request sent by thread [k], and how the server answers it. *)
Definition request_at (url : string) (rs : list (Z * Z)) (k : nat) : request :=
  chunk_request url (rs !!! k).1 (rs !!! k).2.

Definition outcome_at (E : env) (url : string) (rs : list (Z * Z))
    (k : nat) : get_outcome :=
  server_get E k (request_at url rs k).

Definition head_request (url : string) : request := Request HEAD url [].

(** The server answers the size request with a [Content-Length] that
    [int] reads as [total]. *)
Definition reports_size (E : env) (url : string) (total : Z) : Prop :=
  ∃ h content_length,
    server_head E (head_request url) = HeadResponse h ∧
    h !! "content-length" = Some content_length ∧
    int_of_str E content_length = Some total.

(** Lines 86-108 of [download_file_in_chunks], once [ranges] is known. *)
Definition after_planning (E : env) (order : list nat)
    (url save_path : string) (rs : list (Z * Z)) : M unit :=
  modify (set_bars (λ _, make_bars rs)) ;;;
  futures <~ thread_pool (chunk_tasks E url save_path rs) order ;;
  temp_files <~ collect_results futures [] ;;
  modify (set_bars (fmap close_bar)) ;;;
  merge_files temp_files save_path.

Definition fetch_ok (o : get_outcome) : bool :=
  match o with
  | GetResponse _ _ false => true
  | _ => false
  end.

Definition chunk_body (o : get_outcome) : list byte :=
  match o with
  | GetResponse _ blocks _ => concat blocks
  | GetRaise => []
  end.

(** The bytes [content[start .. end]] of a resource, both ends included. *)
Definition slice (content : list byte) (start_byte end_byte : Z) : list byte :=
  take (Z.to_nat (end_byte - start_byte + 1)) (drop (Z.to_nat start_byte) content).

(** The server answers the request of every planned range with exactly the
    bytes of that range, possibly split into several blocks. *)
Definition serves (E : env) (url : string) (content : list byte)
    (rs : list (Z * Z)) : Prop :=
  ∀ (k : nat) s e, rs !! k = Some (s, e) →
    ∃ st blocks,
      server_get E k (chunk_request url s e) = GetResponse st blocks false ∧
      concat blocks = slice content s e.

(** ** Sample servers *)

Definition bytes (s : string) : list byte := String.list_byte_of_string s.

(** A table answering each of the given ranges with its bytes of [content]
    in one block and status 206. *)
Definition range_table (url : string) (content : list byte)
    (rs : list (Z * Z)) : list (request * get_outcome) :=
  (λ '(s, e), (chunk_request url s e, GetResponse 206 [slice content s e] false))
    <$> rs.

(** A ten-byte resource served in whatever ranges the table lists. *)
Definition ten_bytes : list byte := bytes "abcdefghij".

Definition ten_byte_server (rs : list (Z * Z)) : env :=
  Env decimal_int (sized_head "10") (λ _, table_get (range_table "u" ten_bytes rs)).

(** The same server when the request for bytes 4-5 meets a transport
    failure. *)
Definition failing_server : env :=
  ten_byte_server [(0, 1); (2, 3); (6, 7); (8, 9)]%Z.


(** A server that answers a request for ten bytes with status 404 and a
    three-byte body. *)
Definition not_found_server : env :=
  Env decimal_int (sized_head "10")
      (λ _ _, GetResponse 404 [bytes "404"] false).

(** A server whose size response carries no [Content-Length]. *)
Definition sizeless_server : env :=
  Env decimal_int (λ _, HeadResponse ∅) (λ _ _, GetRaise).

Definition one_bar_world : world := World ∅ [] [Bar "Thread 1" 10 0 false].

(** ** Further vocabulary *)

(** A progress bar after [update(n)]. *)
Definition advance_bar (n : Z) (b : bar) : bar :=
  Bar (bar_desc b) (bar_total b) (bar_n b + n) (bar_closed b).

(** A world whose disk holds two scratch files and an older output. *)
Definition two_parts_world : world :=
  World {[ "a" := bytes "xy"; "b" := bytes "z"; "out" := bytes "old" ]} [] [].

(** The blocks the write loop does not skip. *)
Definition written_blocks (blocks : list (list byte)) : list (list byte) :=
  filter (λ c, c ≠ []) blocks.

(** A server that answers with two blocks around an empty one. *)
Definition two_block_server : env :=
  Env decimal_int (sized_head "3")
      (λ _ _, GetResponse 206 [bytes "ab"; []; bytes "c"] false).

(** A server whose size request meets a transport failure. *)
Definition unreachable_server : env :=
  Env decimal_int (λ _, HeadRaise) (λ _ _, GetRaise).

(** ** Properties of the planned ranges *)

Section range_facts.
Local Open Scope Z_scope.

Lemma length_range n : length (range n) = Z.to_nat n.
Proof. unfold range. by rewrite length_fmap, length_seq. Qed.

Lemma range_lookup n (i : nat) :
  (i < Z.to_nat n)%nat → range n !! i = Some (Z.of_nat i).
Proof.
  intros Hi. unfold range. rewrite list_lookup_fmap.
  by rewrite lookup_seq_lt.
Qed.

Lemma length_ranges total n : length (ranges total n) = Z.to_nat n.
Proof. unfold ranges. by rewrite length_fmap, length_range. Qed.

Lemma ranges_lookup total n (i : nat) :
  (i < Z.to_nat n)%nat →
  ranges total n !! i =
    Some (Z.of_nat i * chunk_size total n,
          Z.min ((Z.of_nat i + 1) * chunk_size total n - 1) (total - 1)).
Proof.
  intros Hi. unfold ranges. rewrite list_lookup_fmap.
  by rewrite range_lookup.
Qed.

Lemma ranges_lookup_lt total n (i : nat) r :
  ranges total n !! i = Some r → (i < Z.to_nat n)%nat.
Proof.
  intros H. apply lookup_lt_Some in H. by rewrite length_ranges in H.
Qed.

(** The whole chunks fit in the file, so the [min] never selects
    [total_size - 1]. *)
Lemma chunks_fit total n : 0 < n → n * chunk_size total n ≤ total.
Proof. intros Hn. unfold chunk_size. apply Z.mul_div_le. lia. Qed.

Lemma chunk_size_nonneg total n : 0 ≤ total → 0 < n → 0 ≤ chunk_size total n.
Proof. intros. unfold chunk_size. apply Z.div_pos; lia. Qed.

Lemma ranges_lookup_exact total n (i : nat) :
  0 ≤ total → 0 < n → (i < Z.to_nat n)%nat →
  ranges total n !! i =
    Some (Z.of_nat i * chunk_size total n,
          (Z.of_nat i + 1) * chunk_size total n - 1).
Proof.
  intros Ht Hn Hi. rewrite ranges_lookup by done.
  pose proof (chunks_fit total n Hn) as Hfit.
  pose proof (chunk_size_nonneg total n Ht Hn) as Hcs.
  repeat f_equal. apply Z.min_l. nia.
Qed.

Lemma covered_spec b rs : covered b rs ↔ coveredb b rs = true.
Proof.
  unfold covered, coveredb. rewrite existsb_exists. split.
  - intros (r & Hr & [H1 H2]). exists r. split; [by apply list_elem_of_In|].
    unfold in_rangeb. rewrite !bool_decide_eq_true_2 by done. done.
  - intros (r & Hr & Hb). exists r. split; [by apply list_elem_of_In|].
    unfold in_rangeb in Hb. apply andb_true_iff in Hb as [H1 H2].
    apply bool_decide_eq_true_1 in H1, H2. done.
Qed.

Lemma ranges_contiguous total n :
  0 ≤ total → 0 < n → contiguous (ranges total n).
Proof.
  intros Ht Hn i r1 r2 H1 H2.
  pose proof (ranges_lookup_lt _ _ _ _ H1) as Hi1.
  pose proof (ranges_lookup_lt _ _ _ _ H2) as Hi2.
  rewrite ranges_lookup_exact in H1, H2 by done.
  simplify_eq/=. lia.
Qed.

Lemma ranges_no_overlap total n :
  0 < n → 1 ≤ chunk_size total n → no_overlap (ranges total n).
Proof.
  intros Hn Hcs i j r1 r2 b H1 H2 [Ha Hb] [Hc Hd].
  assert (0 ≤ total) as Ht.
  { pose proof (chunks_fit total n Hn). nia. }
  pose proof (ranges_lookup_lt _ _ _ _ H1) as Hi1.
  pose proof (ranges_lookup_lt _ _ _ _ H2) as Hi2.
  rewrite ranges_lookup_exact in H1, H2 by done.
  simplify_eq/=. apply Nat2Z.inj. nia.
Qed.

Lemma ranges_covered total n b :
  0 < n → 1 ≤ chunk_size total n →
  covered b (ranges total n) ↔ 0 ≤ b ≤ n * chunk_size total n - 1.
Proof.
  intros Hn Hcs.
  assert (0 ≤ total) as Ht.
  { pose proof (chunks_fit total n Hn). nia. }
  split.
  - intros (r & Hr & [Ha Hb]).
    apply list_elem_of_lookup in Hr as [i Hi].
    pose proof (ranges_lookup_lt _ _ _ _ Hi) as Hlt.
    rewrite ranges_lookup_exact in Hi by done. simplify_eq/=. nia.
  - intros [H0 Hb]. set (cs := chunk_size total n) in *.
    assert (0 ≤ b `div` cs) as Hq by (apply Z.div_pos; lia).
    pose proof (Z.mul_div_le b cs ltac:(lia)) as Hlo.
    pose proof (Z.mul_succ_div_gt b cs ltac:(lia)) as Hhi.
    assert (b `div` cs < n) as Hqn by nia.
    exists (Z.of_nat (Z.to_nat (b `div` cs)) * cs,
            (Z.of_nat (Z.to_nat (b `div` cs)) + 1) * cs - 1).
    split.
    + apply list_elem_of_lookup. exists (Z.to_nat (b `div` cs)).
      rewrite ranges_lookup_exact by (done || lia). done.
    + unfold in_range; simpl. rewrite Z2Nat.id by done. lia.
Qed.
End range_facts.

(** ** Scratch-file names *)

Lemma temp_file_path_inj save_path : Inj (=) (=) (temp_file_path save_path).
Proof.
  intros i j H. unfold temp_file_path in H.
  apply (inj (String.app save_path)) in H.
  apply (inj (String.app ".part")) in H.
  by apply (inj pretty) in H.
Qed.

Lemma length_string_app (s1 s2 : string) :
  String.length (s1 +:+ s2) = (String.length s1 + String.length s2)%nat.
Proof. induction s1 as [|c s1 IH]; simpl; [done|]. by rewrite IH. Qed.

Lemma temp_file_path_ne save_path i : temp_file_path save_path i ≠ save_path.
Proof.
  intros H. apply (f_equal String.length) in H.
  unfold temp_file_path in H. rewrite !length_string_app in H.
  simpl in H. lia.
Qed.

(** ** Effects of a single chunk fetch *)

Lemma write_chunks_ok path i blocks : ∀ w c,
  (i < length (bars w))%nat → fs w !! path = Some c →
  ∃ w', write_chunks path i blocks w = (Ok tt, w') ∧
        fs w' = <[path := c ++ concat blocks]> (fs w) ∧
        net_log w' = net_log w ∧ length (bars w') = length (bars w).
Proof.
  induction blocks as [|chunk rest IH]; intros w c Hi Hc; simpl.
  - exists w. rewrite app_nil_r, insert_id by done. done.
  - destruct chunk as [|x chunk].
    + unfold bind, ret. simpl. by apply IH.
    + destruct (lookup_lt_is_Some_2 (bars w) i Hi) as [b Hb].
      unfold bind, f_write, modify, tqdm_update. simpl. rewrite Hb.
      set (w1 := set_bars _ (set_fs _ w)).
      destruct (IH w1 (c ++ x :: chunk)) as (w' & Hrun & Hfs & Hlog & Hbars).
      { subst w1. simpl. by rewrite length_insert. }
      { subst w1. simpl. by rewrite lookup_alter_eq, Hc. }
      exists w'. split; [done|].
      subst w1. simpl in *. rewrite length_insert in Hbars.
      split_and!; [|done..].
      rewrite Hfs. rewrite <- (assoc_L (++)). simpl.
      apply map_eq. intros p. destruct (decide (p = path)) as [->|Hne].
      * by rewrite !lookup_insert_eq.
      * by rewrite !lookup_insert_ne, lookup_alter_ne.
Qed.

Lemma download_chunk_spec E url save_path s e i w :
  (i < length (bars w))%nat →
  ∃ w', download_chunk E url save_path s e i w =
          (future_of save_path i (server_get E i (chunk_request url s e)), w') ∧
        net_log w' = net_log w ++ [chunk_request url s e] ∧
        length (bars w') = length (bars w) ∧
        fs w' !! temp_file_path save_path i =
          written_by (server_get E i (chunk_request url s e))
                     (fs w !! temp_file_path save_path i) ∧
        ∀ p, p ≠ temp_file_path save_path i → fs w' !! p = fs w !! p.
Proof.
  intros Hi. unfold download_chunk, requests_get, bind, modify.
  fold (chunk_request url s e). simpl.
  destruct (server_get E i (chunk_request url s e)) as [|st blocks broken];
    simpl.
  - eexists. split; [done|]. simpl. done.
  - set (w1 := set_fs _ (log_request _ w)).
    destruct (write_chunks_ok (temp_file_path save_path i) i blocks w1 [])
      as (w' & Hrun & Hfs & Hlog & Hbars).
    { done. }
    { subst w1. simpl. by rewrite lookup_insert_eq. }
    rewrite Hrun. exists w'. subst w1. simpl in *.
    split; [by destruct broken|].
    split_and!; [done|done|..].
    + by rewrite Hfs, lookup_insert_eq.
    + intros p Hp. by rewrite Hfs, !lookup_insert_ne.
Qed.

(** ** Progress of a single chunk fetch *)

Lemma advance_bar_0 b : advance_bar 0 b = b.
Proof. destruct b. unfold advance_bar. simpl. by rewrite Z.add_0_r. Qed.

Lemma advance_bar_add n m b :
  advance_bar m (advance_bar n b) = advance_bar (n + m) b.
Proof. unfold advance_bar. simpl. by rewrite Z.add_assoc. Qed.

(** The write loop reports to the thread's bar exactly the bytes it is
    given. *)
Lemma write_chunks_bars path i blocks : ∀ w b,
  bars w !! i = Some b →
  bars (snd (write_chunks path i blocks w)) =
    <[i := advance_bar (Z.of_nat (length (concat blocks))) b]> (bars w).
Proof.
  induction blocks as [|chunk rest IH]; intros w b Hb; simpl.
  - by rewrite advance_bar_0, list_insert_id.
  - destruct chunk as [|x chunk].
    + unfold bind, ret. simpl. by apply IH.
    + unfold bind, f_write, modify, tqdm_update. simpl. rewrite Hb.
      set (w1 := set_bars _ (set_fs _ w)).
      pose proof (lookup_lt_Some _ _ _ Hb) as Hi.
      rewrite (IH w1 (advance_bar (Z.of_nat (S (length chunk))) b)).
      * subst w1. simpl. rewrite list_insert_insert_eq, advance_bar_add.
        do 2 f_equal. rewrite length_app. lia.
      * subst w1. simpl. by apply list_lookup_insert_eq.
Qed.

Lemma download_chunk_bars E url save_path s e i w b :
  bars w !! i = Some b →
  bars (snd (download_chunk E url save_path s e i w)) =
    <[i := advance_bar
             (Z.of_nat (length (chunk_body
                                  (server_get E i (chunk_request url s e)))))
             b]> (bars w).
Proof.
  intros Hb. unfold download_chunk, requests_get, bind, modify.
  fold (chunk_request url s e). simpl.
  destruct (server_get E i (chunk_request url s e)) as [|st blocks broken];
    simpl.
  - by rewrite advance_bar_0, list_insert_id.
  - set (w1 := set_fs _ (log_request _ w)).
    pose proof (write_chunks_bars (temp_file_path save_path i) i blocks w1 b Hb)
      as Hbars.
    destruct (write_chunks_ok (temp_file_path save_path i) i blocks w1 [])
      as (w' & Hrun & _).
    { subst w1. simpl. by eapply lookup_lt_Some. }
    { subst w1. simpl. by rewrite lookup_insert_eq. }
    rewrite Hrun in Hbars |- *. simpl in *. by destruct broken.
Qed.

(** ** Effects of the thread pool *)

Section pool.
Variables (E : env) (url save_path : string) (rs : list (Z * Z)).

(** The tasks of the ranges [suf] that follow the ranges [pre]. *)
Lemma run_tasks_from suf : ∀ pre w,
  rs = pre ++ suf →
  length (bars w) = length rs →
  ∃ w', run_tasks
          (imap (λ i '(start_byte, end_byte),
                   download_chunk E url save_path start_byte end_byte
                     (length pre + i)) suf) w =
          ((λ k, future_of save_path k (outcome_at E url rs k))
             <$> seq (length pre) (length suf), w') ∧
        length (bars w') = length rs ∧
        net_log w' =
          net_log w ++ (request_at url rs <$> seq (length pre) (length suf)) ∧
        (∀ p, (∀ k, (length pre ≤ k < length rs)%nat →
                    p ≠ temp_file_path save_path k) →
              fs w' !! p = fs w !! p) ∧
        (∀ k, (length pre ≤ k < length rs)%nat →
              fs w' !! temp_file_path save_path k =
                written_by (outcome_at E url rs k)
                           (fs w !! temp_file_path save_path k)) ∧
        (∀ k b, bars w !! k = Some b →
              bars w' !! k =
                Some (if decide (length pre ≤ k)%nat
                      then advance_bar
                             (Z.of_nat (length (chunk_body
                                                  (outcome_at E url rs k)))) b
                      else b)).
Proof.
  induction suf as [|[s e] suf IH]; intros pre w Hrs Hbars.
  - exists w. simpl. rewrite app_nil_r. rewrite app_nil_r in Hrs.
    split_and!; try done.
    + intros k Hk. rewrite Hrs in Hk. lia.
    + intros k b Hb. pose proof (lookup_lt_Some _ _ _ Hb) as Hk.
      rewrite Hbars, Hrs in Hk. rewrite decide_False by lia. done.
  - assert (rs !!! length pre = (s, e)) as Hhead.
    { apply list_lookup_total_correct. rewrite Hrs. by apply list_lookup_middle. }
    assert (length rs = (length pre + S (length suf))%nat) as Hlen.
    { rewrite Hrs, length_app. done. }
    rewrite imap_cons. simpl run_tasks. rewrite Nat.add_0_r.
    destruct (lookup_lt_is_Some_2 (bars w) (length pre)) as [b0 Hb0]; [lia|].
    pose proof (download_chunk_bars E url save_path s e (length pre) w b0 Hb0)
      as Hbars1.
    destruct (download_chunk_spec E url save_path s e (length pre) w)
      as (w1 & Hrun & Hlog1 & Hlen1 & Hown1 & Hother1); [lia|].
    rewrite Hrun in Hbars1 |- *. simpl in Hbars1.
    assert (chunk_request url s e = request_at url rs (length pre)) as Hrq.
    { unfold request_at. by rewrite Hhead. }
    rewrite Hrq in Hbars1, Hlog1, Hown1. fold (outcome_at E url rs (length pre))
      in Hbars1, Hown1. rewrite Hrq. fold (outcome_at E url rs (length pre)).
    destruct (IH (pre ++ [(s, e)]) w1)
      as (w2 & Hrest & Hlen2 & Hlog2 & Hother2 & Hown2 & Hbars2).
    { by rewrite <- (assoc_L (++)). }
    { congruence. }
    rewrite length_app in Hrest, Hlog2, Hother2, Hown2, Hbars2. simpl in *.
    rewrite Nat.add_1_r in Hrest, Hlog2, Hother2, Hown2, Hbars2.
    erewrite imap_ext; [rewrite Hrest|].
    2:{ intros i [s' e'] _. simpl. f_equal. lia. }
    exists w2. split_and!.
    + done.
    + done.
    + rewrite Hlog2, Hlog1. by rewrite <- (assoc_L (++)).
    + intros p Hp. rewrite Hother2 by (intros k Hk; apply Hp; lia).
      apply Hother1. apply Hp. lia.
    + intros k Hk. destruct (decide (k = length pre)) as [->|Hne].
      * rewrite Hother2; [done|].
        intros k' Hk' Heq. apply temp_file_path_inj in Heq. lia.
      * rewrite Hown2 by lia. rewrite Hother1; [done|].
        intros Heq. by apply temp_file_path_inj in Heq.
    + intros k b Hb. destruct (decide (k = length pre)) as [->|Hne].
      * rewrite Hb0 in Hb. injection Hb as ->.
        rewrite (Hbars2 (length pre) (advance_bar (Z.of_nat (length (chunk_body
                   (outcome_at E url rs (length pre))))) b)).
        -- rewrite decide_False by lia. rewrite decide_True by lia. done.
        -- rewrite Hbars1. apply list_lookup_insert_eq. by eapply lookup_lt_Some.
      * rewrite (Hbars2 k b).
        -- destruct (decide (S (length pre) ≤ k)%nat).
           ++ rewrite decide_True by lia. done.
           ++ rewrite decide_False by lia. done.
        -- rewrite Hbars1. by rewrite list_lookup_insert_ne.
Qed.

(** All the tasks of a download: the future of task [k] holds what its
    request was answered, every scratch path holds what its task wrote,
    every bar has advanced by the bytes of its chunk, and nothing else has
    changed. *)
Lemma run_tasks_spec w :
  length (bars w) = length rs →
  ∃ w', run_tasks (chunk_tasks E url save_path rs) w =
          ((λ k, future_of save_path k (outcome_at E url rs k))
             <$> seq 0 (length rs), w') ∧
        length (bars w') = length rs ∧
        net_log w' = net_log w ++ (request_at url rs <$> seq 0 (length rs)) ∧
        (∀ p, (∀ k, (k < length rs)%nat → p ≠ temp_file_path save_path k) →
              fs w' !! p = fs w !! p) ∧
        (∀ k, (k < length rs)%nat →
              fs w' !! temp_file_path save_path k =
                written_by (outcome_at E url rs k)
                           (fs w !! temp_file_path save_path k)) ∧
        (∀ k b, bars w !! k = Some b →
              bars w' !! k =
                Some (advance_bar
                        (Z.of_nat (length (chunk_body (outcome_at E url rs k))))
                        b)).
Proof.
  intros Hbars.
  destruct (run_tasks_from rs [] w eq_refl Hbars)
    as (w' & Hrun & Hlen & Hlog & Hother & Hown & Hb).
  exists w'. split; [exact Hrun|]. split_and!.
  - done.
  - done.
  - intros p Hp. apply Hother. intros k Hk. apply Hp. lia.
  - intros k Hk. apply Hown. simpl. lia.
  - intros k b Hkb. rewrite (Hb k b Hkb).
    destruct (decide (length (@nil (Z * Z)) ≤ k)%nat) as [|Hn]; [done|].
    simpl in Hn. lia.
Qed.

(** The futures as [as_completed] yields them. *)
Lemma as_completed_fmap_seq {A} (f : nat → A) (n : nat) order :
  (∀ k, k ∈ order → (k < n)%nat) →
  as_completed (f <$> seq 0 n) order = f <$> order.
Proof.
  unfold as_completed. induction order as [|k order IH]; intros Hlt; [done|].
  csimpl. rewrite list_lookup_fmap, lookup_seq_lt by (apply Hlt; left).
  simpl. rewrite IH; [done|]. intros k' Hk'. apply Hlt. by right.
Qed.
End pool.

(** ** Collecting the futures and merging *)

Lemma collect_results_ok paths : ∀ acc w,
  collect_results (Ok <$> paths) acc w = (Ok (acc ++ paths), w).
Proof.
  induction paths as [|p paths IH]; intros acc w; simpl.
  - by rewrite app_nil_r.
  - rewrite IH. by rewrite <- (assoc_L (++)).
Qed.

(** The first failed future that is yielded decides the exception. *)
Lemma collect_results_raise futures : ∀ acc w,
  (∃ e, Raise e ∈ futures) →
  (∀ e, Raise e ∈ futures → e = RequestException) →
  collect_results futures acc w = (Raise RequestException, w).
Proof.
  induction futures as [|[p|e] rest IH]; intros acc w [e' He'] Hall; simpl.
  - by apply not_elem_of_nil in He'.
  - apply IH.
    + apply elem_of_cons in He' as [?|?]; [done|by exists e'].
    + intros e0 He0. apply Hall. by right.
  - rewrite (Hall e) by left. done.
Qed.

Lemma merge_loop_ok save_path (body : nat → list byte) ks : ∀ w acc,
  NoDup ks →
  fs w !! save_path = Some acc →
  (∀ k, k ∈ ks → fs w !! temp_file_path save_path k = Some (body k)) →
  ∃ w', merge_loop (temp_file_path save_path <$> ks) save_path w = (Ok tt, w') ∧
        fs w' !! save_path = Some (acc ++ concat (body <$> ks)) ∧
        (∀ k, k ∈ ks → fs w' !! temp_file_path save_path k = None) ∧
        (∀ p, p ≠ save_path →
              (∀ k, k ∈ ks → p ≠ temp_file_path save_path k) →
              fs w' !! p = fs w !! p) ∧
        net_log w' = net_log w ∧ bars w' = bars w.
Proof.
  induction ks as [|k ks IH]; intros w acc Hnd Hacc Hparts; simpl.
  - exists w. rewrite app_nil_r. split_and!; try done.
    intros k Hk. by apply not_elem_of_nil in Hk.
  - apply NoDup_cons in Hnd as [Hk Hnd].
    pose proof (temp_file_path_ne save_path k) as Hne.
    unfold bind, read_file, f_write, os_remove, modify. simpl.
    rewrite (Hparts k) by left. simpl.
    rewrite lookup_alter_ne by done. rewrite (Hparts k) by left.
    set (w1 := set_fs (delete _) (set_fs _ w)).
    destruct (IH w1 (acc ++ body k)) as (w' & Hrun & Hout & Hgone & Hother & Hlog & Hbars).
    { done. }
    { subst w1. simpl. rewrite lookup_delete_ne by done.
      by rewrite lookup_alter_eq, Hacc. }
    { intros k' Hk'. subst w1. simpl.
      rewrite lookup_delete_ne.
      - rewrite lookup_alter_ne by (symmetry; apply temp_file_path_ne).
        apply Hparts. by right.
      - intros Heq. apply temp_file_path_inj in Heq. by subst. }
    exists w'. split; [exact Hrun|]. subst w1. simpl in *. split_and!; try done.
    + by rewrite Hout, <- (assoc_L (++)).
    + intros k' Hk'. apply elem_of_cons in Hk' as [->|Hk']; [|by apply Hgone].
      rewrite Hother.
      * by rewrite lookup_delete_eq.
      * done.
      * intros k' Hk' Heq. apply temp_file_path_inj in Heq. by subst.
    + intros p Hp Hpk. rewrite Hother.
      * rewrite lookup_delete_ne by (symmetry; apply Hpk; left).
        by rewrite lookup_alter_ne.
      * done.
      * intros k' Hk'. apply Hpk. by right.
Qed.

(** ** The download after the size is known *)

Lemma lower_content_length : lower "Content-Length" = "content-length".
Proof. reflexivity. Qed.

Lemma download_after_head E order url save_path n w total :
  (0 < n)%Z → reports_size E url total →
  download_file_in_chunks E order url save_path n w =
    after_planning E order url save_path (ranges total n)
      (log_request (head_request url) w).
Proof.
  intros Hn (h & cl & Hhead & Hcl & Hint).
  unfold download_file_in_chunks.
  rewrite bool_decide_eq_false_2 by lia.
  unfold bind at 1. unfold requests_head, bind at 1, modify. simpl.
  fold (head_request url). rewrite Hhead. simpl.
  unfold bind at 1. unfold headers_getitem.
  rewrite lower_content_length, Hcl. simpl.
  unfold bind at 1. unfold int. rewrite Hint. simpl.
  done.
Qed.

Lemma length_make_bars rs : length (make_bars rs) = length rs.
Proof. unfold make_bars. by rewrite length_imap. Qed.

Section after_planning_facts.
Variables (E : env) (url save_path : string) (rs : list (Z * Z)).
Variable order : list nat.
Hypothesis Horder : order ≡ₚ seq 0 (length rs).

Local Abbreviation outcome := (outcome_at E url rs).
Local Abbreviation part := (temp_file_path save_path).

Lemma order_elem k : k ∈ order ↔ (k < length rs)%nat.
Proof. rewrite Horder, elem_of_seq. lia. Qed.

Lemma order_NoDup : NoDup order.
Proof. rewrite Horder. apply NoDup_seq. Qed.

(** Every fetch succeeds: the output is the concatenation of the chunk
    bodies in the order in which the futures are yielded. *)
Lemma after_planning_ok w :
  (∀ k, (k < length rs)%nat → fetch_ok (outcome k) = true) →
  ∃ w', after_planning E order url save_path rs w = (Ok tt, w') ∧
        fs w' !! save_path =
          Some (concat ((λ k, chunk_body (outcome k)) <$> order)) ∧
        (∀ k, (k < length rs)%nat → fs w' !! part k = None) ∧
        (∀ p, p ≠ save_path → (∀ k, (k < length rs)%nat → p ≠ part k) →
              fs w' !! p = fs w !! p) ∧
        net_log w' = net_log w ++ (request_at url rs <$> seq 0 (length rs)).
Proof.
  intros Hok. unfold after_planning, bind at 1, modify.
  set (w0 := set_bars _ w).
  destruct (run_tasks_spec E url save_path rs w0)
    as (w1 & Hrun & Hbars1 & Hlog1 & Hother1 & Hown1 & _).
  { subst w0. simpl. apply length_make_bars. }
  unfold bind at 1, thread_pool. rewrite Hrun.
  rewrite as_completed_fmap_seq by (intros k; apply order_elem).
  assert ((λ k, future_of save_path k (outcome k)) <$> order
          = Ok <$> (part <$> order)) as ->.
  { rewrite <- list_fmap_compose. apply list_fmap_ext.
    intros i k Hk. simpl. apply list_elem_of_lookup_2, order_elem, Hok in Hk.
    unfold fetch_ok in Hk. unfold future_of.
    by destruct (outcome k) as [|? ? []]. }
  unfold bind at 1. rewrite collect_results_ok. simpl.
  unfold bind at 1, modify. unfold merge_files, bind at 1, open_wb, modify.
  set (w2 := set_fs _ (set_bars _ w1)).
  destruct (merge_loop_ok save_path (λ k, chunk_body (outcome k)) order w2 [])
    as (w' & Hmerge & Hout & Hgone & Hother & Hlog & Hbars).
  { apply order_NoDup. }
  { subst w2. simpl. by rewrite lookup_insert_eq. }
  { intros k Hk. subst w2. simpl.
    rewrite lookup_insert_ne by (symmetry; apply temp_file_path_ne).
    rewrite Hown1 by (by apply order_elem). apply order_elem, Hok in Hk.
    unfold fetch_ok in Hk. by destruct (outcome k) as [|? ? []]. }
  exists w'. split; [exact Hmerge|]. subst w2 w0. simpl in *.
  split_and!.
  - done.
  - intros k Hk. by apply Hgone, order_elem.
  - intros p Hp Hpk. rewrite Hother.
    + rewrite lookup_insert_ne by done. by apply Hother1.
    + done.
    + intros k Hk. by apply Hpk, order_elem.
  - by rewrite Hlog, Hlog1.
Qed.

(** Some fetch fails: the exception is re-raised, the merge never runs,
    and whatever the fetches wrote stays on disk. *)
Lemma after_planning_fail w :
  (∃ k, (k < length rs)%nat ∧ fetch_ok (outcome k) = false) →
  ∃ w', after_planning E order url save_path rs w =
          (Raise RequestException, w') ∧
        fs w' !! save_path = fs w !! save_path ∧
        (∀ k, (k < length rs)%nat →
              fs w' !! part k = written_by (outcome k) (fs w !! part k)) ∧
        (∀ p, (∀ k, (k < length rs)%nat → p ≠ part k) →
              fs w' !! p = fs w !! p) ∧
        net_log w' = net_log w ++ (request_at url rs <$> seq 0 (length rs)).
Proof.
  intros (k0 & Hk0 & Hfail). unfold after_planning, bind at 1, modify.
  set (w0 := set_bars _ w).
  destruct (run_tasks_spec E url save_path rs w0)
    as (w1 & Hrun & Hbars1 & Hlog1 & Hother1 & Hown1 & _).
  { subst w0. simpl. apply length_make_bars. }
  unfold bind at 1, thread_pool. rewrite Hrun.
  rewrite as_completed_fmap_seq by (intros k; apply order_elem).
  unfold bind at 1. rewrite collect_results_raise.
  - exists w1. subst w0. simpl in *. split_and!.
    + done.
    + apply Hother1. intros k _. symmetry. apply temp_file_path_ne.
    + intros k Hk. by apply Hown1.
    + intros p Hp. by apply Hother1.
    + done.
  - exists RequestException. apply list_elem_of_fmap.
    exists k0. split; [|by apply order_elem].
    unfold fetch_ok in Hfail. unfold future_of.
    by destruct (outcome k0) as [|? ? []].
  - intros e He. apply list_elem_of_fmap in He as (k & Hk & _).
    unfold future_of in Hk. destruct (outcome k) as [|? ? []]; congruence.
Qed.
End after_planning_facts.

(** Whatever the server answers, the download ends normally or with the
    transport's exception, having sent one request per task. *)
Lemma after_planning_requests E url save_path rs order w :
  order ≡ₚ seq 0 (length rs) →
  ∃ r w', after_planning E order url save_path rs w = (r, w') ∧
          (r = Ok tt ∨ r = Raise RequestException) ∧
          net_log w' = net_log w ++ (request_at url rs <$> seq 0 (length rs)).
Proof.
  intros Horder.
  destruct (decide (Forall (λ k, fetch_ok (outcome_at E url rs k) = true)
                           (seq 0 (length rs)))) as [Hall|Hsome].
  - destruct (after_planning_ok E url save_path rs order Horder w)
      as (w' & Hrun & _ & _ & _ & Hlog).
    { intros k Hk. rewrite Forall_forall in Hall. apply Hall.
      apply elem_of_seq. lia. }
    exists (Ok tt), w'. auto.
  - apply not_Forall_Exists in Hsome; [|apply _].
    apply Exists_exists in Hsome as (k & Hk & Hfail).
    apply elem_of_seq in Hk. apply not_true_is_false in Hfail.
    destruct (after_planning_fail E url save_path rs order Horder w)
      as (w' & Hrun & _ & _ & _ & Hlog).
    { exists k. split; [lia|done]. }
    exists (Raise RequestException), w'. auto.
Qed.


Lemma length_concat_fmap_const {A} (f : nat → list A) (c : nat) ks :
  (∀ k, k ∈ ks → length (f k) = c) →
  length (concat (f <$> ks)) = (length ks * c)%nat.
Proof.
  induction ks as [|k ks IH]; intros Hlen; csimpl; [done|].
  rewrite length_app, (Hlen k) by left.
  rewrite IH; [done|]. intros k' Hk'. apply Hlen. by right.
Qed.

(** Equal-sized consecutive pieces, put together in index order, are a
    prefix of the content. *)
Lemma concat_pieces_in_order {A} (content : list A) (c m : nat) :
  concat ((λ k, take c (drop (k * c) content)) <$> seq 0 m) =
    take (m * c) content.
Proof.
  induction m as [|m IH]; [done|].
  rewrite seq_S, fmap_app, concat_app, IH. simpl.
  rewrite app_nil_r, take_take_drop. f_equal. lia.
Qed.

(** With a server that serves the planned ranges of a resource of
    [total] bytes, the body of chunk [k] is the [k]-th piece of
    [chunk_size] bytes. *)
Lemma served_chunk_body E url content total n k :
  (0 < n)%Z → (0 ≤ total)%Z →
  serves E url content (ranges total n) →
  (k < Z.to_nat n)%nat →
  fetch_ok (outcome_at E url (ranges total n) k) = true ∧
  chunk_body (outcome_at E url (ranges total n) k) =
    take (Z.to_nat (chunk_size total n))
         (drop (k * Z.to_nat (chunk_size total n)) content).
Proof.
  intros Hn Ht Hserves Hk.
  pose proof (ranges_lookup_exact total n k Ht Hn Hk) as Hr.
  pose proof (chunk_size_nonneg total n Ht Hn) as Hcs.
  destruct (Hserves k _ _ Hr) as (st & blocks & Hget & Hbody).
  unfold outcome_at, request_at.
  rewrite (list_lookup_total_correct _ _ _ Hr). simpl.
  rewrite Hget. simpl. split; [done|].
  rewrite Hbody. unfold slice. f_equal; [f_equal; lia|].
  f_equal. rewrite Z2Nat.inj_mul, Nat2Z.id by lia. done.
Qed.

(** When every fetch succeeds the download succeeds, the scratch files are
    gone, and the output file holds the chunk bodies in the order in which
    [as_completed] yielded the futures. *)
Lemma download_ok E order url save_path n w total :
  (0 < n)%Z → reports_size E url total →
  order ≡ₚ seq 0 (Z.to_nat n) →
  (∀ k, (k < Z.to_nat n)%nat →
        fetch_ok (outcome_at E url (ranges total n) k) = true) →
  let '(r, w') := download_file_in_chunks E order url save_path n w in
  r = Ok tt ∧
  fs w' !! save_path =
    Some (concat ((λ k, chunk_body (outcome_at E url (ranges total n) k))
                    <$> order)) ∧
  (∀ k, (k < Z.to_nat n)%nat → fs w' !! temp_file_path save_path k = None).
Proof.
  intros Hn Hsize Horder Hok.
  rewrite (download_after_head E order url save_path n w total Hn Hsize).
  rewrite <- (length_ranges total n) in Horder, Hok |- *.
  destruct (after_planning_ok E url save_path (ranges total n) order Horder
              (log_request (head_request url) w) Hok)
    as (w' & Hrun & Hout & Hgone & _ & _).
  rewrite Hrun. done.
Qed.

(** With a server that serves the planned ranges of a resource, the
    download succeeds and the output is made of the whole chunks only. *)
Lemma download_served E order url save_path n w total content :
  (0 < n)%Z → (1 ≤ chunk_size total n)%Z →
  Z.of_nat (length content) = total →
  reports_size E url total →
  serves E url content (ranges total n) →
  order ≡ₚ seq 0 (Z.to_nat n) →
  let '(r, w') := download_file_in_chunks E order url save_path n w in
  r = Ok tt ∧
  ∃ out, fs w' !! save_path = Some out ∧
         Z.of_nat (length out) = (n * chunk_size total n)%Z ∧
         (order = seq 0 (Z.to_nat n) →
          out = take (Z.to_nat (n * chunk_size total n)) content).
Proof.
  intros Hn Hcs Hlen Hsize Hserves Horder.
  pose proof (chunks_fit total n Hn) as Hfit.
  assert (0 ≤ total)%Z as Ht by nia.
  pose proof (download_ok E order url save_path n w total Hn Hsize Horder)
    as Hrun.
  destruct (download_file_in_chunks E order url save_path n w) as [r w'].
  destruct Hrun as (Hr & Hout & _).
  { intros k Hk. by eapply served_chunk_body. }
  split; [done|]. eexists. split; [exact Hout|].
  set (c := Z.to_nat (chunk_size total n)).
  assert ((λ k, chunk_body (outcome_at E url (ranges total n) k)) <$> order
          = (λ k, take c (drop (k * c) content)) <$> order) as ->.
  { apply list_fmap_ext. intros i k Hk.
    apply list_elem_of_lookup_2 in Hk. rewrite Horder in Hk.
    apply elem_of_seq in Hk.
    by eapply served_chunk_body; [..|lia]. }
  split.
  - rewrite (length_concat_fmap_const _ c).
    + rewrite Horder, length_seq. subst c. lia.
    + intros k Hk. rewrite Horder in Hk. apply elem_of_seq in Hk.
      rewrite length_take_le; [done|]. rewrite length_drop. subst c. nia.
  - intros ->. rewrite concat_pieces_in_order. f_equal. subst c. lia.
Qed.

(** ** The claims of the specification *)

(** C1 (coverage).  The specification promises that for [total_size >= 1] and
    [1 <= num_chunks <= total_size] the planned ranges cover exactly the
    bytes [0 .. total_size-1].  For a file of 10 bytes and 3 chunks the code
    plans [(0,2), (3,5), (6,8)]: there are 3 ranges, they do not overlap and
    leave no gap between them, but byte 9 belongs to none of them. *)
Theorem coverage_misses_last_byte :
  (1 ≤ 10 ∧ 1 ≤ 3 ≤ 10)%Z ∧
  ranges 10 3 = [(0, 2); (3, 5); (6, 8)]%Z ∧
  length (ranges 10 3) = 3%nat ∧
  in_range 9 (0, 10 - 1)%Z ∧
  ¬ covered 9 (ranges 10 3).
Proof.
  split_and!; try done; try (unfold in_range; simpl; lia).
  rewrite covered_spec. by vm_compute.
Qed.

(** C2 (remainder absorption).  The specification promises that the last
    range ends at [total_size - 1], so that [plan(10, 3)] is
    [(0,2), (3,5), (6,9)].  The code's last range for 10 bytes in 3 chunks
    is [(6,8)]: the [min] with [total_size - 1] never takes effect. *)
Theorem last_range_stops_short :
  ranges 10 3 = [(0, 2); (3, 5); (6, 8)]%Z ∧
  last (ranges 10 3) = Some (6, 8)%Z ∧
  ranges 10 3 ≠ [(0, 2); (3, 5); (6, 9)]%Z.
Proof. split_and!; done. Qed.

(** C7.  With [num_threads <= 0] the download raises [ValueError] at once:
    the world is unchanged, so no request has been sent, no file created
    and no progress bar made. *)
Theorem nonpositive_threads_rejected E order url save_path num_threads w :
  (num_threads ≤ 0)%Z →
  download_file_in_chunks E order url save_path num_threads w =
    (Raise (ValueError "Number of threads must be greater than 0"), w).
Proof.
  intros Hn. unfold download_file_in_chunks.
  by rewrite bool_decide_eq_true_2.
Qed.

Lemma nonpositive_threads_rejected_witness :
  (-3 ≤ 0)%Z ∧
  download_file_in_chunks (ten_byte_server []) [] "u" "out" (-3) empty_world =
    (Raise (ValueError "Number of threads must be greater than 0"), empty_world).
Proof.
  split; [lia|].
  apply (nonpositive_threads_rejected (ten_byte_server []) [] "u" "out" (-3)
           empty_world).
  lia.
Defined.

(** C8.  When the response to the size request has no [Content-Length]
    header, the download raises [KeyError] right after that request: the
    only change to the world is the logged HEAD request, so no range was
    planned (no progress bar exists), no chunk request was sent and no file
    was touched. *)
Theorem missing_content_length_fails E order url save_path num_threads w h :
  (0 < num_threads)%Z →
  server_head E (head_request url) = HeadResponse h →
  h !! "content-length" = None →
  download_file_in_chunks E order url save_path num_threads w =
    (Raise (KeyError "content-length"), log_request (head_request url) w).
Proof.
  intros Hn Hhead Hcl. unfold download_file_in_chunks.
  rewrite bool_decide_eq_false_2 by lia.
  unfold bind at 1. unfold requests_head, bind at 1, modify. simpl.
  fold (head_request url). rewrite Hhead. simpl.
  unfold bind at 1. unfold headers_getitem.
  rewrite lower_content_length, Hcl. done.
Qed.

Lemma missing_content_length_fails_witness :
  (0 < 4)%Z ∧
  server_head sizeless_server (head_request "u") = HeadResponse ∅ ∧
  (∅ : gmap string string) !! "content-length" = None ∧
  download_file_in_chunks sizeless_server [0; 1; 2; 3]%nat "u" "out" 4
      empty_world =
    (Raise (KeyError "content-length"),
     log_request (head_request "u") empty_world).
Proof.
  split; [lia|]. split; [reflexivity|]. split; [reflexivity|].
  apply (missing_content_length_fails sizeless_server [0; 1; 2; 3]%nat "u"
           "out" 4 empty_world ∅); [lia|reflexivity|reflexivity].
Defined.

(** C6, as the code has it.  Given a progress bar at the thread's index,
    and a scratch file that can be opened and written, a chunk fetch sends
    exactly one request (it never retries) and looks at neither the status
    code nor the length of the body: it raises exactly when the transport
    does (no response, or a stream that breaks), and otherwise writes
    whatever body arrived to the scratch file and returns its path. *)
Theorem chunk_fetch_accepts_any_response E url save_path s e i w :
  (i < length (bars w))%nat →
  let rq := chunk_request url s e in
  let '(r, w') := download_chunk E url save_path s e i w in
  net_log w' = net_log w ++ [rq] ∧
  match server_get E i rq with
  | GetRaise =>
      r = Raise RequestException ∧
      fs w' !! temp_file_path save_path i = fs w !! temp_file_path save_path i
  | GetResponse status blocks broken =>
      r = (if broken then Raise RequestException
           else Ok (temp_file_path save_path i)) ∧
      fs w' !! temp_file_path save_path i = Some (concat blocks)
  end.
Proof.
  intros Hi rq.
  destruct (download_chunk_spec E url save_path s e i w Hi)
    as (w' & Hrun & Hlog & _ & Hown & _).
  rewrite Hrun. fold rq in Hlog, Hown |- *. split; [done|].
  by destruct (server_get E i rq).
Qed.

Lemma chunk_fetch_accepts_any_response_witness :
  (0 < length (bars one_bar_world))%nat ∧
  let rq := chunk_request "u" 0 9 in
  let '(r, w') := download_chunk not_found_server "u" "out" 0 9 0
                    one_bar_world in
  net_log w' = net_log one_bar_world ++ [rq] ∧
  match server_get not_found_server 0 rq with
  | GetRaise =>
      r = Raise RequestException ∧
      fs w' !! temp_file_path "out" 0 = fs one_bar_world !! temp_file_path "out" 0
  | GetResponse status blocks broken =>
      r = (if broken then Raise RequestException
           else Ok (temp_file_path "out" 0)) ∧
      fs w' !! temp_file_path "out" 0 = Some (concat blocks)
  end.
Proof.
  split; [simpl; lia|].
  apply (chunk_fetch_accepts_any_response not_found_server "u" "out" 0 9 0
           one_bar_world).
  simpl; lia.
Defined.

(** C6, as the specification states it, fails: asked for the ten bytes
    0-9, a server answers with status 404 (not a partial-content status)
    and a three-byte body (shorter than the range); the fetch returns the
    scratch path as a success and the three bytes are on disk. *)
Lemma chunk_fetch_accepts_short_404 :
  server_get not_found_server 0 (chunk_request "u" 0 9) =
    GetResponse 404 [bytes "404"] false ∧
  (Z.of_nat (length (bytes "404")) < 9 - 0 + 1)%Z ∧
  fst (download_chunk not_found_server "u" "out" 0 9 0 one_bar_world) =
    Ok "out.part0" ∧
  fs (snd (download_chunk not_found_server "u" "out" 0 9 0 one_bar_world))
    !! "out.part0" = Some (bytes "404").
Proof. split_and!; by vm_compute. Qed.

(** C9.  The scratch file of thread [i] is [save_path ++ ".part" ++ str(i)]:
    whenever a response arrives the fetch creates the file at that path,
    holding the body received (on the disk of the model, which accepts the
    write), and when none arrives the path is left as it was; the fetch
    touches no other path, the path it returns is that one and the file
    then exists, and two indices with the same scratch name are equal. *)
Theorem scratch_name_by_index E url save_path s e i w :
  (i < length (bars w))%nat →
  temp_file_path save_path i = save_path +:+ ".part" +:+ pretty i ∧
  (∀ j, temp_file_path save_path j = temp_file_path save_path i → j = i) ∧
  let '(r, w') := download_chunk E url save_path s e i w in
  (∀ p, p ≠ temp_file_path save_path i → fs w' !! p = fs w !! p) ∧
  (∀ path, r = Ok path →
           path = temp_file_path save_path i ∧ is_Some (fs w' !! path)) ∧
  match server_get E i (chunk_request url s e) with
  | GetResponse _ blocks _ =>
      fs w' !! temp_file_path save_path i = Some (concat blocks)
  | GetRaise =>
      fs w' !! temp_file_path save_path i = fs w !! temp_file_path save_path i
  end.
Proof.
  intros Hi. split; [done|]. split.
  { intros j Hj. by apply temp_file_path_inj in Hj. }
  destruct (download_chunk_spec E url save_path s e i w Hi)
    as (w' & Hrun & _ & _ & Hown & Hother).
  rewrite Hrun. split; [done|]. split.
  - intros path Hpath.
    destruct (server_get E i (chunk_request url s e)) as [|st blocks []];
      simpl in *; simplify_eq.
    split; [done|]. rewrite Hown. eauto.
  - by destruct (server_get E i (chunk_request url s e)).
Qed.

Lemma scratch_name_by_index_witness :
  (0 < length (bars one_bar_world))%nat ∧
  temp_file_path "out" 0 = "out" +:+ ".part" +:+ pretty 0%nat ∧
  (∀ j, temp_file_path "out" j = temp_file_path "out" 0 → j = 0%nat) ∧
  let '(r, w') := download_chunk not_found_server "u" "out" 0 9 0
                    one_bar_world in
  (∀ p, p ≠ temp_file_path "out" 0 → fs w' !! p = fs one_bar_world !! p) ∧
  (∀ path, r = Ok path →
           path = temp_file_path "out" 0 ∧ is_Some (fs w' !! path)) ∧
  match server_get not_found_server 0 (chunk_request "u" 0 9) with
  | GetResponse _ blocks _ =>
      fs w' !! temp_file_path "out" 0 = Some (concat blocks)
  | GetRaise =>
      fs w' !! temp_file_path "out" 0 = fs one_bar_world !! temp_file_path "out" 0
  end.
Proof.
  split; [simpl; lia|].
  apply (scratch_name_by_index not_found_server "u" "out" 0 9 0 one_bar_world).
  simpl; lia.
Defined.

(** X1.  On a disk where the scratch files and the output file can be
    written: when every fetch succeeds the download returns normally, the
    scratch files are gone, and the output file holds the chunk bodies in
    the order [order] in which [as_completed] yielded the futures, which
    need not be the order of the ranges nor the order in which the fetches
    finished. *)
Theorem output_in_yield_order E order url save_path n w total :
  (0 < n)%Z → reports_size E url total →
  order ≡ₚ seq 0 (Z.to_nat n) →
  (∀ k, (k < Z.to_nat n)%nat →
        fetch_ok (outcome_at E url (ranges total n) k) = true) →
  let '(r, w') := download_file_in_chunks E order url save_path n w in
  r = Ok tt ∧
  fs w' !! save_path =
    Some (concat ((λ k, chunk_body (outcome_at E url (ranges total n) k))
                    <$> order)) ∧
  (∀ k, (k < Z.to_nat n)%nat → fs w' !! temp_file_path save_path k = None).
Proof. apply download_ok. Qed.

Lemma output_in_yield_order_witness :
  (0 < 2)%Z ∧ reports_size (ten_byte_server (ranges 10 2)) "u" 10 ∧
  [1; 0]%nat ≡ₚ seq 0 (Z.to_nat 2) ∧
  let '(r, w') := download_file_in_chunks (ten_byte_server (ranges 10 2))
                    [1; 0]%nat "u" "out" 2 empty_world in
  r = Ok tt ∧
  fs w' !! "out" =
    Some (concat ((λ k, chunk_body (outcome_at (ten_byte_server (ranges 10 2))
                                      "u" (ranges 10 2) k))
                    <$> [1; 0]%nat)) ∧
  (∀ k, (k < Z.to_nat 2)%nat → fs w' !! temp_file_path "out" k = None).
Proof.
  assert (reports_size (ten_byte_server (ranges 10 2)) "u" 10) as Hsize.
  { eexists _, _. split_and!; reflexivity. }
  assert ([1; 0]%nat ≡ₚ seq 0 (Z.to_nat 2)) as Horder.
  { apply Permutation_swap. }
  split; [lia|]. split; [exact Hsize|]. split; [exact Horder|].
  apply (output_in_yield_order (ten_byte_server (ranges 10 2))
           [1; 0]%nat "u" "out" 2 empty_world 10); [lia|exact Hsize|exact Horder|].
  intros [|[|k]] Hk; [reflexivity|reflexivity|simpl in Hk; lia].
Defined.

(** C3 (merge determinism).  The specification promises that the output is
    the concatenation of the chunks in index order whatever the completion
    order.  The code appends each scratch path when [as_completed] yields
    its future and merges in that order: for a ten-byte resource fetched in
    two chunks the output is the resource when the future of chunk 0 is
    yielded first, and its two halves swapped when the future of chunk 1
    is yielded first, as it is when chunk 1 completes first while the
    main thread waits. *)
Theorem completion_order_leaks_into_output :
  [1; 0]%nat ≡ₚ [0; 1]%nat ∧
  ranges 10 2 = [(0, 4); (5, 9)]%Z ∧
  fs (snd (download_file_in_chunks (ten_byte_server (ranges 10 2))
             [0; 1]%nat "u" "out" 2 empty_world)) !! "out"
    = Some (bytes "abcdefghij") ∧
  fs (snd (download_file_in_chunks (ten_byte_server (ranges 10 2))
             [1; 0]%nat "u" "out" 2 empty_world)) !! "out"
    = Some (bytes "fghijabcde") ∧
  fst (download_file_in_chunks (ten_byte_server (ranges 10 2))
         [1; 0]%nat "u" "out" 2 empty_world) = Ok tt.
Proof.
  split; [apply Permutation_swap|]. split_and!; by vm_compute.
Qed.




(** C5, as the code has it.  When some chunk fetch fails, the download
    re-raises the transport's exception and never merges: the output path
    holds what it held before the call (no output file is created), and no
    scratch file is removed.  The scratch path of each chunk holds the
    body its fetch received ([written_by]: the bytes received when a
    response arrived, complete or not; what was there before when no
    response arrived), and no other path has changed. *)
Theorem failed_fetch_leaves_scratch_files E order url save_path n w total :
  (0 < n)%Z → reports_size E url total →
  order ≡ₚ seq 0 (Z.to_nat n) →
  (∃ k, (k < Z.to_nat n)%nat ∧
        fetch_ok (outcome_at E url (ranges total n) k) = false) →
  let '(r, w') := download_file_in_chunks E order url save_path n w in
  r = Raise RequestException ∧
  fs w' !! save_path = fs w !! save_path ∧
  (∀ k, (k < Z.to_nat n)%nat →
        fs w' !! temp_file_path save_path k =
          written_by (outcome_at E url (ranges total n) k)
                     (fs w !! temp_file_path save_path k)) ∧
  (∀ k st blocks, (k < Z.to_nat n)%nat →
        outcome_at E url (ranges total n) k = GetResponse st blocks false →
        fs w' !! temp_file_path save_path k = Some (concat blocks)) ∧
  (∀ p, (∀ k, (k < Z.to_nat n)%nat → p ≠ temp_file_path save_path k) →
        fs w' !! p = fs w !! p).
Proof.
  intros Hn Hsize Horder Hfail.
  rewrite (download_after_head E order url save_path n w total Hn Hsize).
  rewrite <- (length_ranges total n) in Horder, Hfail |- *.
  destruct (after_planning_fail E url save_path (ranges total n) order Horder
              (log_request (head_request url) w) Hfail)
    as (w' & Hrun & Hout & Hown & Hother & _).
  rewrite Hrun. simpl in *. split_and!; try done.
  intros k st blocks Hk Hget. rewrite Hown, Hget by done. done.
Qed.

Lemma failed_fetch_leaves_scratch_files_witness :
  (0 < 5)%Z ∧ reports_size failing_server "u" 10 ∧
  seq 0 5 ≡ₚ seq 0 (Z.to_nat 5) ∧
  (∃ k, (k < Z.to_nat 5)%nat ∧
        fetch_ok (outcome_at failing_server "u" (ranges 10 5) k) = false) ∧
  let '(r, w') := download_file_in_chunks failing_server (seq 0 5) "u" "out"
                    5 empty_world in
  r = Raise RequestException ∧
  fs w' !! "out" = fs empty_world !! "out" ∧
  (∀ k, (k < Z.to_nat 5)%nat →
        fs w' !! temp_file_path "out" k =
          written_by (outcome_at failing_server "u" (ranges 10 5) k)
                     (fs empty_world !! temp_file_path "out" k)) ∧
  (∀ k st blocks, (k < Z.to_nat 5)%nat →
        outcome_at failing_server "u" (ranges 10 5) k =
          GetResponse st blocks false →
        fs w' !! temp_file_path "out" k = Some (concat blocks)) ∧
  (∀ p, (∀ k, (k < Z.to_nat 5)%nat → p ≠ temp_file_path "out" k) →
        fs w' !! p = fs empty_world !! p).
Proof.
  assert (reports_size failing_server "u" 10) as Hsize.
  { eexists _, _. split_and!; reflexivity. }
  assert (∃ k, (k < Z.to_nat 5)%nat ∧
            fetch_ok (outcome_at failing_server "u" (ranges 10 5) k) = false)
    as Hfail.
  { exists 2%nat. split; [simpl; lia|reflexivity]. }
  split; [lia|]. split; [exact Hsize|]. split; [reflexivity|].
  split; [exact Hfail|].
  apply (failed_fetch_leaves_scratch_files failing_server (seq 0 5) "u" "out"
           5 empty_world 10); [lia|exact Hsize|reflexivity|exact Hfail].
Defined.

(** C5, as the specification states it, fails: chunk 2 of 5 fails, the
    download raises, no output file exists, and the scratch files of
    chunks 0, 1, 3 and 4 are still on disk. *)
Lemma scratch_files_survive_failure :
  let '(r, w') := download_file_in_chunks failing_server (seq 0 5) "u" "out"
                    5 empty_world in
  outcome_at failing_server "u" (ranges 10 5) 2 = GetRaise ∧
  r = Raise RequestException ∧
  fs w' !! "out" = None ∧
  fs w' !! "out.part0" = Some (bytes "ab") ∧
  fs w' !! "out.part1" = Some (bytes "cd") ∧
  fs w' !! "out.part2" = None ∧
  fs w' !! "out.part3" = Some (bytes "gh") ∧
  fs w' !! "out.part4" = Some (bytes "ij").
Proof. by vm_compute. Qed.

(** C10.  For [num_threads >= 1] and a chunk size of at least 1, the
    planned ranges are [num_threads] ranges of [chunk_size] bytes each:
    range [i] is [(i * chunk_size, (i + 1) * chunk_size - 1)], so the first
    starts at 0, each starts right after the previous one ends and no two
    overlap.  Their union is [0 .. num_threads * chunk_size - 1], which is
    [0 .. total_size - 1] without its last [total_size mod num_threads]
    bytes: those belong to no range.  Hence, with a server that serves
    exactly the requested ranges of a resource of [total_size] bytes, the
    download succeeds and the output has [total_size - total_size mod
    num_threads] bytes; when the futures are yielded in index order it is
    the resource without its last [total_size mod num_threads] bytes. *)
Theorem ranges_drop_remainder total n :
  (1 ≤ n)%Z → (1 ≤ total `div` n)%Z →
  let cs := chunk_size total n in
  length (ranges total n) = Z.to_nat n ∧
  (∀ i : nat, (i < Z.to_nat n)%nat →
     ranges total n !! i = Some (Z.of_nat i * cs, (Z.of_nat i + 1) * cs - 1)%Z) ∧
  contiguous (ranges total n) ∧
  no_overlap (ranges total n) ∧
  (∀ b, covered b (ranges total n) ↔ (0 ≤ b ≤ n * cs - 1)%Z) ∧
  (n * cs = total - total `mod` n)%Z ∧
  (∀ b, (total - total `mod` n ≤ b ≤ total - 1)%Z →
        ¬ covered b (ranges total n)) ∧
  (∀ E order url save_path w content,
     Z.of_nat (length content) = total →
     reports_size E url total →
     serves E url content (ranges total n) →
     order ≡ₚ seq 0 (Z.to_nat n) →
     let '(r, w') := download_file_in_chunks E order url save_path n w in
     r = Ok tt ∧
     ∃ out, fs w' !! save_path = Some out ∧
            (Z.of_nat (length out) = total - total `mod` n)%Z ∧
            (order = seq 0 (Z.to_nat n) →
             out = take (Z.to_nat (total - total `mod` n)) content)).
Proof.
  intros Hn Hcs cs. fold (chunk_size total n) in Hcs. fold cs in Hcs.
  assert (0 < n)%Z as Hn' by lia.
  pose proof (chunks_fit total n Hn') as Hfit. fold cs in Hfit.
  assert (0 ≤ total)%Z as Ht by nia.
  assert (n * cs = total - total `mod` n)%Z as Hmod.
  { subst cs. unfold chunk_size. rewrite Z.mod_eq by lia. lia. }
  split; [apply length_ranges|].
  split; [intros i Hi; by apply ranges_lookup_exact|].
  split; [by apply ranges_contiguous|].
  split; [by apply ranges_no_overlap|].
  split; [intros b; by apply ranges_covered|].
  split; [done|].
  split.
  { intros b Hb Hcov. apply ranges_covered in Hcov; [|done..].
    fold cs in Hcov. lia. }
  intros E order url save_path w content Hlen Hsize Hserves Horder.
  pose proof (download_served E order url save_path n w total content Hn'
                Hcs Hlen Hsize Hserves Horder) as Hrun.
  destruct (download_file_in_chunks E order url save_path n w) as [r w'].
  fold cs in Hrun. rewrite Hmod in Hrun. done.
Qed.

Lemma ranges_drop_remainder_witness :
  (1 ≤ 3)%Z ∧ (1 ≤ 10 `div` 3)%Z ∧
  Z.of_nat (length ten_bytes) = 10%Z ∧
  reports_size (ten_byte_server (ranges 10 3)) "u" 10 ∧
  serves (ten_byte_server (ranges 10 3)) "u" ten_bytes (ranges 10 3) ∧
  [2; 0; 1]%nat ≡ₚ seq 0 (Z.to_nat 3) ∧
  length (ranges 10 3) = Z.to_nat 3 ∧
  contiguous (ranges 10 3) ∧
  no_overlap (ranges 10 3) ∧
  (∀ b, covered b (ranges 10 3) ↔ (0 ≤ b ≤ 3 * chunk_size 10 3 - 1)%Z) ∧
  (3 * chunk_size 10 3 = 10 - 10 `mod` 3)%Z ∧
  ¬ covered 9 (ranges 10 3) ∧
  let '(r, w') := download_file_in_chunks (ten_byte_server (ranges 10 3))
                    [2; 0; 1]%nat "u" "out" 3 empty_world in
  r = Ok tt ∧
  ∃ out, fs w' !! "out" = Some out ∧
         (Z.of_nat (length out) = 10 - 10 `mod` 3)%Z.
Proof.
  assert (reports_size (ten_byte_server (ranges 10 3)) "u" 10) as Hsize.
  { eexists _, _. split_and!; reflexivity. }
  assert (serves (ten_byte_server (ranges 10 3)) "u" ten_bytes (ranges 10 3))
    as Hserves.
  { intros [|[|[|k]]] s e Hk; simplify_eq/=;
      eexists _, _; split; reflexivity. }
  assert ([2; 0; 1]%nat ≡ₚ seq 0 (Z.to_nat 3)) as Horder.
  { simpl. etrans; [apply Permutation_swap|]. apply perm_skip, Permutation_swap. }
  destruct (ranges_drop_remainder 10 3 ltac:(lia) ltac:(by vm_compute))
    as (Hlen & _ & Hcont & Hno & Hcov & Hmod & Hun & Hrun).
  specialize (Hrun (ten_byte_server (ranges 10 3)) [2; 0; 1]%nat "u" "out"
                empty_world ten_bytes eq_refl Hsize Hserves Horder).
  destruct (download_file_in_chunks (ten_byte_server (ranges 10 3))
              [2; 0; 1]%nat "u" "out" 3 empty_world) as [r w'].
  destruct Hrun as (Hr & out & Hout & Hl & _).
  split; [lia|]. split; [by vm_compute|]. split; [reflexivity|].
  split; [exact Hsize|]. split; [exact Hserves|]. split; [exact Horder|].
  split; [exact Hlen|]. split; [exact Hcont|]. split; [exact Hno|].
  split; [exact Hcov|]. split; [exact Hmod|].
  split; [apply Hun; by vm_compute|].
  split; [exact Hr|]. exists out. split; [exact Hout|exact Hl].
Defined.

(** The server of the ten-byte resource serves the three planned ranges,
    and the download of it in three chunks, the futures yielded in index
    order, writes the first nine bytes only. *)
Example ten_bytes_in_three_chunks :
  reports_size (ten_byte_server (ranges 10 3)) "u" 10 ∧
  serves (ten_byte_server (ranges 10 3)) "u" ten_bytes (ranges 10 3) ∧
  download_file_in_chunks (ten_byte_server (ranges 10 3)) (seq 0 3) "u" "out"
      3 empty_world =
    (Ok tt,
     World {[ "out" := bytes "abcdefghi" ]}
           (head_request "u"
              :: [chunk_request "u" 0 2; chunk_request "u" 3 5;
                  chunk_request "u" 6 8])
           [Bar "Thread 1" 3 3 true; Bar "Thread 2" 3 3 true;
            Bar "Thread 3" 3 3 true]).
Proof.
  split; [eexists _, _; split_and!; reflexivity|]. split.
  - intros [|[|[|k]]] s e Hk; simplify_eq/=;
      eexists _, _; split; reflexivity.
  - by vm_compute.
Qed.

(** X2.  On a disk where the scratch files and the output file can be
    written: when [num_threads] divides the size, the server serves exactly
    the requested ranges and [as_completed] yields the futures in index
    order ([order] is [seq 0 num_threads]), the download returns normally
    and the output is the resource. *)
Theorem exact_division_in_order_copies_resource E url save_path n w total
    content :
  (0 < n)%Z → (total `mod` n = 0)%Z → (n ≤ total)%Z →
  Z.of_nat (length content) = total →
  reports_size E url total →
  serves E url content (ranges total n) →
  let '(r, w') := download_file_in_chunks E (seq 0 (Z.to_nat n)) url
                    save_path n w in
  r = Ok tt ∧ fs w' !! save_path = Some content.
Proof.
  intros Hn Hmod Hle Hlen Hsize Hserves.
  assert (n * chunk_size total n = total)%Z as Hexact.
  { unfold chunk_size. rewrite Z.mod_eq in Hmod by lia. lia. }
  assert (1 ≤ chunk_size total n)%Z as Hcs by nia.
  pose proof (download_served E (seq 0 (Z.to_nat n)) url save_path n w total
                content Hn Hcs Hlen Hsize Hserves (reflexivity _)) as Hrun.
  destruct (download_file_in_chunks E (seq 0 (Z.to_nat n)) url save_path n w)
    as [r w'].
  destruct Hrun as (Hr & out & Hout & _ & Heq).
  split; [done|]. rewrite Hout, Heq by done. f_equal.
  apply take_ge. lia.
Qed.

Lemma exact_division_in_order_copies_resource_witness :
  (0 < 5)%Z ∧ (10 `mod` 5 = 0)%Z ∧ (5 ≤ 10)%Z ∧
  Z.of_nat (length ten_bytes) = 10%Z ∧
  reports_size (ten_byte_server (ranges 10 5)) "u" 10 ∧
  serves (ten_byte_server (ranges 10 5)) "u" ten_bytes (ranges 10 5) ∧
  let '(r, w') := download_file_in_chunks (ten_byte_server (ranges 10 5))
                    (seq 0 (Z.to_nat 5)) "u" "out" 5 empty_world in
  r = Ok tt ∧ fs w' !! "out" = Some ten_bytes.
Proof.
  assert (reports_size (ten_byte_server (ranges 10 5)) "u" 10) as Hsize.
  { eexists _, _. split_and!; reflexivity. }
  assert (serves (ten_byte_server (ranges 10 5)) "u" ten_bytes (ranges 10 5))
    as Hserves.
  { intros [|[|[|[|[|k]]]]] s e Hk; simplify_eq/=;
      eexists _, _; split; reflexivity. }
  split; [lia|]. split; [reflexivity|]. split; [lia|]. split; [reflexivity|].
  split; [exact Hsize|]. split; [exact Hserves|].
  apply (exact_division_in_order_copies_resource
           (ten_byte_server (ranges 10 5)) "u" "out" 5 empty_world 10
           ten_bytes); [lia|reflexivity|lia|reflexivity|exact Hsize|exact Hserves].
Defined.

(** ** Further properties: merge_files *)

Lemma Forall2_impl_elem {A B} (P Q : A → B → Prop) l k :
  Forall2 P l k → (∀ x y, x ∈ l → P x y → Q x y) → Forall2 Q l k.
Proof.
  induction 1 as [|x y l k Hxy Hlk IH]; intros Himp; constructor.
  - apply Himp; [left|done].
  - apply IH. intros x' y' Hx'. apply Himp. by right.
Qed.

(** Merging a prefix of readable, distinct files: they are appended to
    the output in list order and removed, and the loop goes on with the
    rest of the list. *)
Lemma merge_loop_prefix save_path rest pre : ∀ w acc datas,
  NoDup pre → save_path ∉ pre →
  fs w !! save_path = Some acc →
  Forall2 (λ p d, fs w !! p = Some d) pre datas →
  ∃ w1, merge_loop (pre ++ rest) save_path w = merge_loop rest save_path w1 ∧
        fs w1 !! save_path = Some (acc ++ concat datas) ∧
        (∀ q, q ∈ pre → fs w1 !! q = None) ∧
        (∀ q, q ≠ save_path → q ∉ pre → fs w1 !! q = fs w !! q) ∧
        net_log w1 = net_log w ∧ bars w1 = bars w.
Proof.
  induction pre as [|p pre IH]; intros w acc datas Hnd Hsp Hacc Hall.
  - apply Forall2_nil_inv_l in Hall as ->. exists w. simpl.
    rewrite app_nil_r. split_and!; try done.
    intros q Hq. by apply not_elem_of_nil in Hq.
  - apply Forall2_cons_inv_l in Hall as (d & datas' & Hp & Hall & ->).
    apply NoDup_cons in Hnd as [Hpn Hnd].
    apply not_elem_of_cons in Hsp as [Hne Hsp].
    simpl. unfold bind at 1. unfold read_file. rewrite Hp.
    unfold bind at 1. unfold f_write, modify.
    unfold bind at 1. unfold os_remove. simpl.
    rewrite lookup_alter_ne by done. rewrite Hp.
    set (w1 := set_fs (delete p) (set_fs _ w)).
    destruct (IH w1 (acc ++ d) datas') as (w2 & Hrun & Hout & Hgone & Hother & Hlog & Hbars).
    { done. }
    { done. }
    { subst w1. simpl. rewrite lookup_delete_ne by done.
      by rewrite lookup_alter_eq, Hacc. }
    { eapply Forall2_impl_elem; [exact Hall|]. intros q dq Hin Hq.
      subst w1. simpl in *.
      rewrite lookup_delete_ne by (intros ->; done).
      rewrite lookup_alter_ne by (intros ->; done). done. }
    exists w2. split; [exact Hrun|]. subst w1. simpl in *. split_and!; try done.
    + by rewrite Hout, <- (assoc_L (++)).
    + intros q Hq. apply elem_of_cons in Hq as [->|Hq]; [|by apply Hgone].
      rewrite Hother by done. by rewrite lookup_delete_eq.
    + intros q Hq Hnq. apply not_elem_of_cons in Hnq as [Hqp Hnq].
      rewrite Hother by done. rewrite lookup_delete_ne by done.
      by rewrite lookup_alter_ne.
Qed.

(** X3.  On a disk where the output path can be opened for writing and
    different path strings name different files: [merge_files] on distinct
    readable files, none of them the output path, returns normally, the
    output file holds the contents of the files in list order (whatever it
    held before), every merged file is removed, and nothing else
    changes. *)
Theorem merge_files_concatenates temp_files save_path w datas :
  NoDup temp_files → save_path ∉ temp_files →
  Forall2 (λ p d, fs w !! p = Some d) temp_files datas →
  let '(r, w') := merge_files temp_files save_path w in
  r = Ok tt ∧
  fs w' !! save_path = Some (concat datas) ∧
  (∀ q, q ∈ temp_files → fs w' !! q = None) ∧
  (∀ q, q ≠ save_path → q ∉ temp_files → fs w' !! q = fs w !! q) ∧
  net_log w' = net_log w ∧ bars w' = bars w.
Proof.
  intros Hnd Hsp Hall. unfold merge_files, bind, open_wb, modify.
  set (w0 := set_fs _ w).
  destruct (merge_loop_prefix save_path [] temp_files w0 [] datas)
    as (w1 & Hrun & Hout & Hgone & Hother & Hlog & Hbars); try done.
  { subst w0. simpl. by rewrite lookup_insert_eq. }
  { eapply Forall2_impl_elem; [exact Hall|]. intros q d Hq Hd.
    subst w0. simpl. rewrite lookup_insert_ne by (intros ->; done). done. }
  rewrite app_nil_r in Hrun. rewrite Hrun. simpl.
  subst w0. simpl in *. split_and!; try done.
  intros q Hq Hnq. rewrite Hother by done. by rewrite lookup_insert_ne.
Qed.

Lemma merge_files_concatenates_witness :
  NoDup ["a"; "b"] ∧ ("out" ∉ ["a"; "b"]) ∧
  Forall2 (λ p d, fs two_parts_world !! p = Some d) ["a"; "b"]
          [bytes "xy"; bytes "z"] ∧
  let '(r, w') := merge_files ["a"; "b"] "out" two_parts_world in
  r = Ok tt ∧
  fs w' !! "out" = Some (concat [bytes "xy"; bytes "z"]) ∧
  (∀ q, q ∈ ["a"; "b"] → fs w' !! q = None) ∧
  (∀ q, q ≠ "out" → q ∉ ["a"; "b"] → fs w' !! q = fs two_parts_world !! q) ∧
  net_log w' = net_log two_parts_world ∧ bars w' = bars two_parts_world.
Proof.
  assert (NoDup ["a"; "b"]) as Hnd by (apply (bool_decide_unpack _); by vm_compute).
  assert ("out" ∉ ["a"; "b"]) as Hsp by (apply (bool_decide_unpack _); by vm_compute).
  assert (Forall2 (λ p d, fs two_parts_world !! p = Some d) ["a"; "b"]
            [bytes "xy"; bytes "z"]) as Hall.
  { repeat constructor. }
  split; [exact Hnd|]. split; [exact Hsp|]. split; [exact Hall|].
  apply (merge_files_concatenates ["a"; "b"] "out" two_parts_world
           [bytes "xy"; bytes "z"] Hnd Hsp Hall).
Defined.

(** X4.  [merge_files] stops at the first file it cannot read, which is
    one that is not on disk or one already merged (listed twice): it
    raises [FileNotFoundError], the output file is left holding what was
    merged so far, the files merged so far are gone, and the files after
    it are untouched. *)
Theorem merge_files_stops_at_missing_file pre p post save_path w datas :
  NoDup pre → save_path ∉ pre → p ≠ save_path →
  Forall2 (λ q d, fs w !! q = Some d) pre datas →
  fs w !! p = None ∨ p ∈ pre →
  let '(r, w') := merge_files (pre ++ p :: post) save_path w in
  r = Raise (FileNotFoundError p) ∧
  fs w' !! save_path = Some (concat datas) ∧
  (∀ q, q ∈ pre → fs w' !! q = None) ∧
  (∀ q, q ≠ save_path → q ∉ pre → fs w' !! q = fs w !! q).
Proof.
  intros Hnd Hsp Hp Hall Hmiss. unfold merge_files, bind, open_wb, modify.
  set (w0 := set_fs _ w).
  destruct (merge_loop_prefix save_path (p :: post) pre w0 [] datas)
    as (w1 & Hrun & Hout & Hgone & Hother & Hlog & Hbars); try done.
  { subst w0. simpl. by rewrite lookup_insert_eq. }
  { eapply Forall2_impl_elem; [exact Hall|]. intros q d Hq Hd.
    subst w0. simpl. rewrite lookup_insert_ne by (intros ->; done). done. }
  rewrite Hrun. simpl. unfold bind, read_file.
  assert (fs w1 !! p = None) as ->.
  { destruct (decide (p ∈ pre)) as [Hin|Hnin]; [by apply Hgone|].
    rewrite Hother by done. subst w0. simpl.
    rewrite lookup_insert_ne by done. by destruct Hmiss. }
  subst w0. simpl in *. split_and!; try done.
  intros q Hq Hnq. rewrite Hother by done. by rewrite lookup_insert_ne.
Qed.

Lemma merge_files_stops_at_missing_file_witness :
  NoDup ["a"] ∧ ("out" ∉ ["a"]) ∧ ("a" ≠ "out") ∧
  Forall2 (λ q d, fs two_parts_world !! q = Some d) ["a"] [bytes "xy"] ∧
  (fs two_parts_world !! "a" = None ∨ "a" ∈ ["a"]) ∧
  let '(r, w') := merge_files (["a"] ++ "a" :: ["b"]) "out" two_parts_world in
  r = Raise (FileNotFoundError "a") ∧
  fs w' !! "out" = Some (concat [bytes "xy"]) ∧
  (∀ q, q ∈ ["a"] → fs w' !! q = None) ∧
  (∀ q, q ≠ "out" → q ∉ ["a"] → fs w' !! q = fs two_parts_world !! q).
Proof.
  assert (NoDup ["a"]) as Hnd by (apply (bool_decide_unpack _); by vm_compute).
  assert ("out" ∉ ["a"]) as Hsp by (apply (bool_decide_unpack _); by vm_compute).
  assert ("a" ≠ "out") as Hp by (apply (bool_decide_unpack _); by vm_compute).
  assert (Forall2 (λ q d, fs two_parts_world !! q = Some d) ["a"]
            [bytes "xy"]) as Hall.
  { repeat constructor. }
  assert (fs two_parts_world !! "a" = None ∨ "a" ∈ ["a"]) as Hmiss.
  { right. left. }
  split; [exact Hnd|]. split; [exact Hsp|]. split; [exact Hp|].
  split; [exact Hall|]. split; [exact Hmiss|].
  apply (merge_files_stops_at_missing_file ["a"] "a" ["b"] "out"
           two_parts_world [bytes "xy"] Hnd Hsp Hp Hall Hmiss).
Defined.

(** ** Further properties: download_chunk *)

(** X5.  A chunk fetch advances the progress bar of its thread by exactly
    the number of bytes it has put in its scratch file, and changes no
    other bar; when no response arrives no bar changes. *)
Theorem chunk_fetch_progress E url save_path s e i w b :
  bars w !! i = Some b →
  let w' := snd (download_chunk E url save_path s e i w) in
  match server_get E i (chunk_request url s e) with
  | GetRaise => bars w' = bars w
  | GetResponse _ _ _ =>
      ∃ data,
        fs w' !! temp_file_path save_path i = Some data ∧
        bars w' = <[i := advance_bar (Z.of_nat (length data)) b]> (bars w)
  end.
Proof.
  intros Hb w'.
  pose proof (download_chunk_bars E url save_path s e i w b Hb) as Hbars.
  destruct (download_chunk_spec E url save_path s e i w)
    as (w1 & Hrun & _ & _ & Hown & _).
  { by eapply lookup_lt_Some. }
  subst w'. rewrite Hrun in Hbars |- *. simpl in *.
  destruct (server_get E i (chunk_request url s e)) as [|st blocks broken];
    simpl in *.
  - by rewrite Hbars, advance_bar_0, list_insert_id.
  - exists (concat blocks). done.
Qed.

Lemma chunk_fetch_progress_witness :
  bars one_bar_world !! 0%nat = Some (Bar "Thread 1" 10 0 false) ∧
  let w' := snd (download_chunk two_block_server "u" "out" 0 2 0
                   one_bar_world) in
  match server_get two_block_server 0 (chunk_request "u" 0 2) with
  | GetRaise => bars w' = bars one_bar_world
  | GetResponse _ _ _ =>
      ∃ data,
        fs w' !! temp_file_path "out" 0 = Some data ∧
        bars w' = <[0%nat := advance_bar (Z.of_nat (length data))
                               (Bar "Thread 1" 10 0 false)]>
                    (bars one_bar_world)
  end.
Proof.
  split; [reflexivity|].
  apply (chunk_fetch_progress two_block_server "u" "out" 0 2 0 one_bar_world
           (Bar "Thread 1" 10 0 false)).
  reflexivity.
Defined.

Lemma written_blocks_nil rest : written_blocks ([] :: rest) = written_blocks rest.
Proof. unfold written_blocks. by rewrite filter_cons_False by (intros H; by apply H). Qed.

Lemma written_blocks_cons x c rest :
  written_blocks ((x :: c) :: rest) = (x :: c) :: written_blocks rest.
Proof. unfold written_blocks. by rewrite filter_cons_True. Qed.

(** Without a bar for the thread, the write loop stops at the first block
    it does not skip, after writing it. *)
Lemma write_chunks_no_bar path i blocks : ∀ w acc,
  bars w !! i = None → fs w !! path = Some acc →
  match written_blocks blocks with
  | [] => fst (write_chunks path i blocks w) = Ok tt ∧
          fs (snd (write_chunks path i blocks w)) !! path = Some acc
  | c :: _ => fst (write_chunks path i blocks w) = Raise IndexError ∧
              fs (snd (write_chunks path i blocks w)) !! path = Some (acc ++ c)
  end.
Proof.
  induction blocks as [|chunk rest IH]; intros w acc Hb Hacc.
  - done.
  - destruct chunk as [|x chunk].
    + rewrite written_blocks_nil. simpl. unfold bind, ret. simpl. by apply IH.
    + rewrite written_blocks_cons. simpl.
      unfold bind, f_write, modify, tqdm_update. simpl. rewrite Hb. simpl.
      split; [done|]. by rewrite lookup_alter_eq, Hacc.
Qed.

(** X6.  When the list of progress bars has no bar at the thread's index
    and a response arrives, the fetch raises [IndexError] at the first
    non-empty block, which is already in the scratch file; only a body
    without any non-empty block goes through, leaving an empty scratch
    file. *)
Theorem chunk_fetch_without_bar E url save_path s e i w st blocks broken :
  bars w !! i = None →
  server_get E i (chunk_request url s e) = GetResponse st blocks broken →
  let '(r, w') := download_chunk E url save_path s e i w in
  match written_blocks blocks with
  | [] =>
      r = (if broken then Raise RequestException
           else Ok (temp_file_path save_path i)) ∧
      fs w' !! temp_file_path save_path i = Some []
  | c :: _ =>
      r = Raise IndexError ∧ fs w' !! temp_file_path save_path i = Some c
  end.
Proof.
  intros Hb Hget. unfold download_chunk, requests_get, bind, modify.
  fold (chunk_request url s e). simpl. rewrite Hget. simpl.
  set (w1 := set_fs _ (log_request _ w)).
  pose proof (write_chunks_no_bar (temp_file_path save_path i) i blocks w1 []
                Hb) as Hrun.
  destruct (write_chunks (temp_file_path save_path i) i blocks w1) as [r w'].
  specialize (Hrun ltac:(subst w1; simpl; by rewrite lookup_insert_eq)).
  simpl in Hrun.
  destruct (written_blocks blocks) as [|c ?].
  - destruct Hrun as [-> Hfs]. by destruct broken.
  - by destruct Hrun as [-> Hfs].
Qed.

Lemma chunk_fetch_without_bar_witness :
  bars empty_world !! 0%nat = None ∧
  server_get two_block_server 0 (chunk_request "u" 0 2) =
    GetResponse 206 [bytes "ab"; []; bytes "c"] false ∧
  let '(r, w') := download_chunk two_block_server "u" "out" 0 2 0
                    empty_world in
  match written_blocks [bytes "ab"; []; bytes "c"] with
  | [] =>
      r = (if false then Raise RequestException
           else Ok (temp_file_path "out" 0)) ∧
      fs w' !! temp_file_path "out" 0 = Some []
  | c :: _ =>
      r = Raise IndexError ∧ fs w' !! temp_file_path "out" 0 = Some c
  end.
Proof.
  split; [reflexivity|]. split; [reflexivity|].
  apply (chunk_fetch_without_bar two_block_server "u" "out" 0 2 0 empty_world
           206 [bytes "ab"; []; bytes "c"] false); reflexivity.
Defined.

(** ** Further properties: download_file_in_chunks *)

(** Past the guard, either the size is found or the download stops right
    after the size request. *)
Lemma download_size_cases E order url save_path n w :
  (0 < n)%Z →
  (∃ total, reports_size E url total) ∨
  (∃ e, download_file_in_chunks E order url save_path n w =
          (Raise e, log_request (head_request url) w)).
Proof.
  intros Hn.
  destruct (server_head E (head_request url)) as [|h] eqn:Hhead.
  - right. exists RequestException. unfold download_file_in_chunks.
    rewrite bool_decide_eq_false_2 by lia.
    unfold bind at 1. unfold requests_head, bind at 1, modify. simpl.
    fold (head_request url). by rewrite Hhead.
  - destruct (h !! "content-length") as [cl|] eqn:Hcl.
    + destruct (int_of_str E cl) as [total|] eqn:Hint.
      * left. exists total, h, cl. done.
      * right. exists (ValueError "invalid literal for int()").
        unfold download_file_in_chunks.
        rewrite bool_decide_eq_false_2 by lia.
        unfold bind at 1. unfold requests_head, bind at 1, modify. simpl.
        fold (head_request url). rewrite Hhead. simpl.
        unfold bind at 1. unfold headers_getitem.
        rewrite lower_content_length, Hcl. simpl.
        unfold bind at 1. unfold int. by rewrite Hint.
    + right. exists (KeyError "content-length").
      unfold download_file_in_chunks.
      rewrite bool_decide_eq_false_2 by lia.
      unfold bind at 1. unfold requests_head, bind at 1, modify. simpl.
      fold (head_request url). rewrite Hhead. simpl.
      unfold bind at 1. unfold headers_getitem.
      by rewrite lower_content_length, Hcl.
Qed.

(** X7.  When the size request meets a transport failure, or its
    [Content-Length] is not an integer for [int], the download raises (the
    transport's exception, or [ValueError]) having only sent the size
    request: no chunk is requested, no file and no bar is touched. *)
Theorem size_failure_stops_download E order url save_path n w :
  (0 < n)%Z →
  server_head E (head_request url) = HeadRaise ∨
  (∃ h content_length,
     server_head E (head_request url) = HeadResponse h ∧
     h !! "content-length" = Some content_length ∧
     int_of_str E content_length = None) →
  download_file_in_chunks E order url save_path n w =
    (Raise match server_head E (head_request url) with
           | HeadRaise => RequestException
           | HeadResponse _ => ValueError "invalid literal for int()"
           end,
     log_request (head_request url) w).
Proof.
  intros Hn Hfail. unfold download_file_in_chunks.
  rewrite bool_decide_eq_false_2 by lia.
  unfold bind at 1. unfold requests_head, bind at 1, modify. simpl.
  fold (head_request url).
  destruct Hfail as [Hhead|(h & cl & Hhead & Hcl & Hint)]; rewrite Hhead.
  - done.
  - simpl. unfold bind at 1. unfold headers_getitem.
    rewrite lower_content_length, Hcl. simpl.
    unfold bind at 1. unfold int. by rewrite Hint.
Qed.

Lemma size_failure_stops_download_witness :
  (0 < 2)%Z ∧
  (server_head unreachable_server (head_request "u") = HeadRaise ∨
   (∃ h content_length,
      server_head unreachable_server (head_request "u") = HeadResponse h ∧
      h !! "content-length" = Some content_length ∧
      int_of_str unreachable_server content_length = None)) ∧
  download_file_in_chunks unreachable_server [0; 1]%nat "u" "out" 2
      two_parts_world =
    (Raise match server_head unreachable_server (head_request "u") with
           | HeadRaise => RequestException
           | HeadResponse _ => ValueError "invalid literal for int()"
           end,
     log_request (head_request "u") two_parts_world).
Proof.
  split; [lia|]. split; [left; reflexivity|].
  apply (size_failure_stops_download unreachable_server [0; 1]%nat "u" "out" 2
           two_parts_world); [lia|left; reflexivity].
Defined.

Lemma request_at_ranges url rs :
  request_at url rs <$> seq 0 (length rs) =
    (λ r, chunk_request url r.1 r.2) <$> rs.
Proof.
  apply list_eq. intros i. rewrite !list_lookup_fmap.
  destruct (rs !! i) as [r|] eqn:Hr; simpl.
  - rewrite lookup_seq_lt by (by eapply lookup_lt_Some). simpl.
    unfold request_at. by rewrite (list_lookup_total_correct _ _ _ Hr).
  - rewrite lookup_seq_ge; [done|]. by apply lookup_ge_None.
Qed.

(** X8.  Once the size is known, the download sends the size request and
    then exactly one request per planned range, each with the header of
    its range, whether the fetches succeed or fail: no request is repeated
    and none is withheld after a failure. *)
Theorem every_range_is_requested_once E order url save_path n w total :
  (0 < n)%Z → reports_size E url total →
  order ≡ₚ seq 0 (Z.to_nat n) →
  ∃ gets,
    net_log (snd (download_file_in_chunks E order url save_path n w)) =
      net_log w ++ head_request url :: gets ∧
    gets ≡ₚ (λ r, chunk_request url r.1 r.2) <$> ranges total n.
Proof.
  intros Hn Hsize Horder.
  rewrite (download_after_head E order url save_path n w total Hn Hsize).
  rewrite <- (length_ranges total n) in Horder.
  destruct (after_planning_requests E url save_path (ranges total n) order
              (log_request (head_request url) w) Horder)
    as (r & w' & Hrun & _ & Hlog).
  rewrite Hrun. simpl.
  exists (request_at url (ranges total n) <$> seq 0 (length (ranges total n))).
  split.
  - rewrite Hlog. simpl. by rewrite <- (assoc_L (++)).
  - by rewrite request_at_ranges.
Qed.

Lemma every_range_is_requested_once_witness :
  (0 < 5)%Z ∧ reports_size failing_server "u" 10 ∧
  [4; 2; 0; 1; 3]%nat ≡ₚ seq 0 (Z.to_nat 5) ∧
  ∃ gets,
    net_log (snd (download_file_in_chunks failing_server [4; 2; 0; 1; 3]%nat
                    "u" "out" 5 empty_world)) =
      net_log empty_world ++ head_request "u" :: gets ∧
    gets ≡ₚ (λ r, chunk_request "u" r.1 r.2) <$> ranges 10 5.
Proof.
  assert (reports_size failing_server "u" 10) as Hsize.
  { eexists _, _. split_and!; reflexivity. }
  assert ([4; 2; 0; 1; 3]%nat ≡ₚ seq 0 (Z.to_nat 5)) as Horder.
  { apply (bool_decide_unpack _). by vm_compute. }
  split; [lia|]. split; [exact Hsize|]. split; [exact Horder|].
  apply (every_range_is_requested_once failing_server [4; 2; 0; 1; 3]%nat "u"
           "out" 5 empty_world 10); [lia|exact Hsize|exact Horder].
Defined.

(** The pool and the merge touch the output path and the scratch paths
    only. *)
Lemma after_planning_frame E url save_path rs order w p :
  order ≡ₚ seq 0 (length rs) →
  p ≠ save_path →
  (∀ k, (k < length rs)%nat → p ≠ temp_file_path save_path k) →
  fs (snd (after_planning E order url save_path rs w)) !! p = fs w !! p.
Proof.
  intros Horder Hp Hpk.
  destruct (decide (Forall (λ k, fetch_ok (outcome_at E url rs k) = true)
                           (seq 0 (length rs)))) as [Hall|Hsome].
  - destruct (after_planning_ok E url save_path rs order Horder w)
      as (w' & Hrun & _ & _ & Hother & _).
    { intros k Hk. rewrite Forall_forall in Hall. apply Hall.
      apply elem_of_seq. lia. }
    rewrite Hrun. simpl. by apply Hother.
  - apply not_Forall_Exists in Hsome; [|apply _].
    apply Exists_exists in Hsome as (k & Hk & Hfail).
    apply elem_of_seq in Hk. apply not_true_is_false in Hfail.
    destruct (after_planning_fail E url save_path rs order Horder w)
      as (w' & Hrun & _ & _ & Hother & _).
    { exists k. split; [lia|done]. }
    rewrite Hrun. simpl. by apply Hother.
Qed.

Lemma download_frame E order url save_path n w p :
  order ≡ₚ seq 0 (Z.to_nat n) →
  p ≠ save_path →
  (∀ k, (k < Z.to_nat n)%nat → p ≠ temp_file_path save_path k) →
  fs (snd (download_file_in_chunks E order url save_path n w)) !! p =
    fs w !! p.
Proof.
  intros Horder Hp Hpk.
  destruct (decide (n ≤ 0)%Z) as [Hn|Hn].
  { unfold download_file_in_chunks. by rewrite bool_decide_eq_true_2. }
  destruct (download_size_cases E order url save_path n w ltac:(lia))
    as [[total Hsize]|[e Hrun]].
  - rewrite (download_after_head E order url save_path n w total) by (lia || done).
    rewrite <- (length_ranges total n) in Horder, Hpk.
    by rewrite after_planning_frame.
  - by rewrite Hrun.
Qed.

(** X9.  Whatever the server does, the download changes no file other than
    the output file and the scratch files of its chunks. *)
Theorem download_touches_only_its_paths E order url save_path n w p :
  order ≡ₚ seq 0 (Z.to_nat n) →
  p ≠ save_path →
  (∀ k, (k < Z.to_nat n)%nat → p ≠ temp_file_path save_path k) →
  fs (snd (download_file_in_chunks E order url save_path n w)) !! p =
    fs w !! p.
Proof. apply download_frame. Qed.

Lemma download_touches_only_its_paths_witness :
  [1; 0]%nat ≡ₚ seq 0 (Z.to_nat 2) ∧ ("a" ≠ "out") ∧
  (∀ k, (k < Z.to_nat 2)%nat → "a" ≠ temp_file_path "out" k) ∧
  fs (snd (download_file_in_chunks (ten_byte_server (ranges 10 2))
             [1; 0]%nat "u" "out" 2 two_parts_world)) !! "a" =
    fs two_parts_world !! "a".
Proof.
  assert ([1; 0]%nat ≡ₚ seq 0 (Z.to_nat 2)) as Horder.
  { apply Permutation_swap. }
  assert ("a" ≠ "out") as Hp by (apply (bool_decide_unpack _); by vm_compute).
  assert (∀ k, (k < Z.to_nat 2)%nat → "a" ≠ temp_file_path "out" k) as Hpk.
  { intros k _ H. apply (f_equal String.length) in H.
    unfold temp_file_path in H. rewrite !length_string_app in H.
    simpl in H. lia. }
  split; [exact Horder|]. split; [exact Hp|]. split; [exact Hpk|].
  apply (download_touches_only_its_paths (ten_byte_server (ranges 10 2))
           [1; 0]%nat "u" "out" 2 two_parts_world "a" Horder Hp Hpk).
Defined.

(** X10.  On a disk where the scratch files and the output file can be
    written: when a download whose fetches all succeed is run a second
    time on the disk the first run left, with the same answers from the
    server, and [as_completed] yields the futures in the same order
    [order] in both runs, the second run returns normally and leaves the
    disk exactly as the first run left it: the output is rewritten with
    the same bytes and no scratch file is left over. *)
Theorem rerun_leaves_same_files E order url save_path n w total :
  (0 < n)%Z → reports_size E url total →
  order ≡ₚ seq 0 (Z.to_nat n) →
  (∀ k, (k < Z.to_nat n)%nat →
        fetch_ok (outcome_at E url (ranges total n) k) = true) →
  let w1 := snd (download_file_in_chunks E order url save_path n w) in
  download_file_in_chunks E order url save_path n w1 =
    (Ok tt, snd (download_file_in_chunks E order url save_path n w1)) ∧
  fs (snd (download_file_in_chunks E order url save_path n w1)) = fs w1.
Proof.
  intros Hn Hsize Horder Hok w1.
  pose proof (download_ok E order url save_path n w total Hn Hsize Horder Hok)
    as H1.
  pose proof (download_ok E order url save_path n w1 total Hn Hsize Horder Hok)
    as H2.
  pose proof (download_frame E order url save_path n w1) as Hframe.
  destruct (download_file_in_chunks E order url save_path n w1) as [r2 w2].
  subst w1.
  destruct (download_file_in_chunks E order url save_path n w) as [r1 w1].
  simpl in *. destruct H1 as (_ & Hout1 & Hgone1).
  destruct H2 as (-> & Hout2 & Hgone2). split; [done|].
  apply map_eq. intros p.
  destruct (decide (p = save_path)) as [->|Hp]; [by rewrite Hout1, Hout2|].
  destruct (decide (Exists (λ k, p = temp_file_path save_path k)
                           (seq 0 (Z.to_nat n)))) as [Hex|Hnk].
  - apply Exists_exists in Hex as (k & Hk & ->). apply elem_of_seq in Hk.
    rewrite Hgone1, Hgone2 by lia. done.
  - apply Hframe; [done..|]. intros k Hk ->. apply Hnk.
    apply Exists_exists. exists k. split; [|done]. apply elem_of_seq. lia.
Qed.

Lemma rerun_leaves_same_files_witness :
  (0 < 2)%Z ∧ reports_size (ten_byte_server (ranges 10 2)) "u" 10 ∧
  [1; 0]%nat ≡ₚ seq 0 (Z.to_nat 2) ∧
  (∀ k, (k < Z.to_nat 2)%nat →
        fetch_ok (outcome_at (ten_byte_server (ranges 10 2)) "u"
                    (ranges 10 2) k) = true) ∧
  let w1 := snd (download_file_in_chunks (ten_byte_server (ranges 10 2))
                   [1; 0]%nat "u" "out" 2 two_parts_world) in
  download_file_in_chunks (ten_byte_server (ranges 10 2)) [1; 0]%nat "u"
      "out" 2 w1 =
    (Ok tt, snd (download_file_in_chunks (ten_byte_server (ranges 10 2))
                   [1; 0]%nat "u" "out" 2 w1)) ∧
  fs (snd (download_file_in_chunks (ten_byte_server (ranges 10 2))
             [1; 0]%nat "u" "out" 2 w1)) = fs w1.
Proof.
  assert (reports_size (ten_byte_server (ranges 10 2)) "u" 10) as Hsize.
  { eexists _, _. split_and!; reflexivity. }
  assert ([1; 0]%nat ≡ₚ seq 0 (Z.to_nat 2)) as Horder.
  { apply Permutation_swap. }
  assert (∀ k, (k < Z.to_nat 2)%nat →
            fetch_ok (outcome_at (ten_byte_server (ranges 10 2)) "u"
                        (ranges 10 2) k) = true) as Hok.
  { intros [|[|k]] Hk; [reflexivity|reflexivity|simpl in Hk; lia]. }
  split; [lia|]. split; [exact Hsize|]. split; [exact Horder|].
  split; [exact Hok|].
  apply (rerun_leaves_same_files (ten_byte_server (ranges 10 2)) [1; 0]%nat
           "u" "out" 2 two_parts_world 10); [lia|exact Hsize|exact Horder|exact Hok].
Defined.






